(** * The persist middleware and its thenable adapter

    A shallow embedding of [src/middleware/persist.ts] (the mutator-chain
    variant) and of the [update] helper of the context-store variant.

    JavaScript code with side effects is embedded in a state-and-exception
    monad [Js] over a [world] that holds the closure variables of one
    persisted store ([options], [persistentStorage], [hasHydrated],
    [initialStateFromPersistentStorage], the two emitters), the parent store's
    current state, the backing data of the storage medium, and a trace of the
    observable effects (console output, calls of user callbacks, writes of
    the hydration flag).  The functions a caller supplies (serializer,
    merge, callbacks, listeners, storage methods) return or throw, possibly
    a promise; they do not call back into the store.

    The union [R | Promise<R> | Thenable<R>] of the source is the sum type
    [Returned R], and [hasThen] tells its summands apart.  Of the data that
    flows through a chain, a text is no object and an envelope has the two
    members of its type; a state record, however, may have a member named
    [then], and [hasThen] takes such a record for a thenable: it is handed
    back as it is, and since no field value of a record is a function,
    calling its [then] or [catch] throws a [TypeError].  Native promises are
    opaque handles: a stage handed to a promise is not run by the model,
    which therefore speaks of what happens before a call returns. *)

From Stdlib Require Import ZArith.
From stdpp Require Import base option list gmap strings.

Local Open Scope string_scope.
Local Open Scope list_scope.
Set Warnings "-register-all".

(** ** Data *)

(** Thrown values. *)
Definition error := string.

(** Field values of a state record; the middleware never looks inside them. *)
Inductive value :=
| VNull
| VBool (b : bool)
| VNum (n : Z)
| VStr (s : string)
| VObj (fields : gmap string value).

(** [EState] and [ESelectedState]: plain records. *)
Abbreviation EState := (gmap string value).

(** [{ ...a, ...b }] for two records: keys of [b] overwrite those of [a]. *)
Definition spread (a b : EState) : EState := b ∪ a.

(** What a stage may hand to [merge]: [null], [undefined] or a record. *)
Inductive Persisted :=
| PNull
| PUndefined
| PState (s : EState).

(** Spreading [null] or [undefined] adds no key. *)
Definition fieldsOf (p : Persisted) : EState :=
  match p with
  | PState s => s
  | PNull | PUndefined => ∅
  end.

(** [parentGet()] is [undefined] until the store has a state. *)
Definition fieldsOfState (s : option EState) : EState := default ∅ s.

(** [Serialized<EPersistentStorageValue>]: the stored text. *)
Abbreviation Serialized := string (only parsing).

(** [EPersistentStorageValue]: the envelope; [version] may be missing. *)
Record EPersistentStorageValue := {
  env_state : EState;
  env_version : option Z
}.

(** The result of running JavaScript code: a value or a thrown error. *)
Inductive outcome (A : Type) :=
| Ret (a : A)
| Throw (e : error).
Arguments Ret {A} a.
Arguments Throw {A} e.

(** A native promise, as an opaque handle; [Chained p] is what [p.then(..)]
    or [p.catch(..)] gives back. *)
Inductive promise :=
| HostPromise (id : nat)
| Chained (p : promise).

(** [MaybePromise<T>]. *)
Inductive MaybePromise (T : Type) :=
| Now (r : T)
| Later (p : promise).
Arguments Now {T} r.
Arguments Later {T} p.

(** [Thenable<T>]: the two objects [thenablify] builds, each closed over its
    [throwImmediately] flag, or a value that [hasThen] accepts and that is
    returned as it is: a promise, or a state record that has a member named
    [then]. *)
Inductive Thenable (T : Type) :=
| Fulfilled (r : T) (throwImmediately : bool)
| Rejected (e : error) (throwImmediately : bool)
| PromiseLike (p : promise)
| RecordWithThen (s : EState).
Arguments Fulfilled {T} r throwImmediately.
Arguments Rejected {T} e throwImmediately.
Arguments PromiseLike {T} p.
Arguments RecordWithThen {T} s.

(** [R | Promise<R> | Thenable<R>]. *)
Inductive Returned (R : Type) :=
| Plain (r : R)
| Thenish (t : Thenable R).
Arguments Plain {R} r.
Arguments Thenish {R} t.

Definition ofMaybePromise {T} (m : MaybePromise T) : Returned T :=
  match m with
  | Now r => Plain r
  | Later p => Thenish (PromiseLike p)
  end.

(** [PersistentStorage]: a handle on the medium's data. *)
Record EPersistentStorage := {
  getItem : string → gmap string Serialized →
            outcome (MaybePromise (option Serialized));
  setItem : string → Serialized → gmap string Serialized →
            outcome (MaybePromise unit) * gmap string Serialized;
  removeItem : string → gmap string Serialized →
               outcome (MaybePromise unit) * gmap string Serialized
}.

(** A storage provider ([getStorage]) is a host function: its result may
    depend on when it is called, so it takes the number of earlier provider
    calls. *)
Definition Provider := nat → outcome (option EPersistentStorage).

(** The function [onRehydrateStorage] may return. *)
Definition PostRehydrationCallback :=
  option EState → option error → outcome unit.

(** The [options] variable: the caller's options over [defaultOptions]; the
    three members the code tests for presence stay optional. *)
Record Options := {
  name : string;
  getStorage : option Provider;
  serialize : EPersistentStorageValue → outcome (MaybePromise Serialized);
  deserialize : Serialized → outcome (MaybePromise EPersistentStorageValue);
  partialize : EState → outcome EState;
  onRehydrateStorage :
    option (option EState → outcome (option PostRehydrationCallback));
  version : Z;
  migrate : option (EState → Z → outcome (MaybePromise EState));
  merge : Persisted → EState → outcome EState
}.

(** A listener of an emitter: a function known by its identity. *)
Record Listener := {
  lid : nat;
  lcall : option EState → outcome unit
}.

(** The trace of observable effects. *)
Inductive event :=
| ConsoleWarn (msg : string)
| ConsoleError (msg : string)
| ListenerCalled (id : nat) (s : option EState)
| OnRehydrateStorageCalled (s : option EState)
| PostRehydrationCalled (s : option EState) (e : option error)
| HasHydratedSet (b : bool).

Record world := {
  state : option EState;
  medium : gmap string Serialized;
  providerCalls : nat;
  log : list event;
  options : Options;
  persistentStorage : option EPersistentStorage;
  hasHydrated : bool;
  initialStateFromPersistentStorage : option EState;
  hydrationListeners : list Listener;
  finishHydrationListeners : list Listener
}.

Definition set_state (x : option EState) (w : world) : world :=
  {| state := x; medium := medium w; providerCalls := providerCalls w;
     log := log w; options := options w;
     persistentStorage := persistentStorage w; hasHydrated := hasHydrated w;
     initialStateFromPersistentStorage := initialStateFromPersistentStorage w;
     hydrationListeners := hydrationListeners w;
     finishHydrationListeners := finishHydrationListeners w |}.

Definition set_medium (x : gmap string Serialized) (w : world) : world :=
  {| state := state w; medium := x; providerCalls := providerCalls w;
     log := log w; options := options w;
     persistentStorage := persistentStorage w; hasHydrated := hasHydrated w;
     initialStateFromPersistentStorage := initialStateFromPersistentStorage w;
     hydrationListeners := hydrationListeners w;
     finishHydrationListeners := finishHydrationListeners w |}.

Definition set_providerCalls (x : nat) (w : world) : world :=
  {| state := state w; medium := medium w; providerCalls := x;
     log := log w; options := options w;
     persistentStorage := persistentStorage w; hasHydrated := hasHydrated w;
     initialStateFromPersistentStorage := initialStateFromPersistentStorage w;
     hydrationListeners := hydrationListeners w;
     finishHydrationListeners := finishHydrationListeners w |}.

Definition set_log (x : list event) (w : world) : world :=
  {| state := state w; medium := medium w; providerCalls := providerCalls w;
     log := x; options := options w;
     persistentStorage := persistentStorage w; hasHydrated := hasHydrated w;
     initialStateFromPersistentStorage := initialStateFromPersistentStorage w;
     hydrationListeners := hydrationListeners w;
     finishHydrationListeners := finishHydrationListeners w |}.

Definition set_options (x : Options) (w : world) : world :=
  {| state := state w; medium := medium w; providerCalls := providerCalls w;
     log := log w; options := x;
     persistentStorage := persistentStorage w; hasHydrated := hasHydrated w;
     initialStateFromPersistentStorage := initialStateFromPersistentStorage w;
     hydrationListeners := hydrationListeners w;
     finishHydrationListeners := finishHydrationListeners w |}.

Definition set_persistentStorage (x : option EPersistentStorage) (w : world)
  : world :=
  {| state := state w; medium := medium w; providerCalls := providerCalls w;
     log := log w; options := options w;
     persistentStorage := x; hasHydrated := hasHydrated w;
     initialStateFromPersistentStorage := initialStateFromPersistentStorage w;
     hydrationListeners := hydrationListeners w;
     finishHydrationListeners := finishHydrationListeners w |}.

Definition set_hasHydrated (x : bool) (w : world) : world :=
  {| state := state w; medium := medium w; providerCalls := providerCalls w;
     log := log w; options := options w;
     persistentStorage := persistentStorage w; hasHydrated := x;
     initialStateFromPersistentStorage := initialStateFromPersistentStorage w;
     hydrationListeners := hydrationListeners w;
     finishHydrationListeners := finishHydrationListeners w |}.

Definition set_initialStateFromPersistentStorage (x : option EState)
  (w : world) : world :=
  {| state := state w; medium := medium w; providerCalls := providerCalls w;
     log := log w; options := options w;
     persistentStorage := persistentStorage w; hasHydrated := hasHydrated w;
     initialStateFromPersistentStorage := x;
     hydrationListeners := hydrationListeners w;
     finishHydrationListeners := finishHydrationListeners w |}.

Definition set_hydrationListeners (x : list Listener) (w : world) : world :=
  {| state := state w; medium := medium w; providerCalls := providerCalls w;
     log := log w; options := options w;
     persistentStorage := persistentStorage w; hasHydrated := hasHydrated w;
     initialStateFromPersistentStorage := initialStateFromPersistentStorage w;
     hydrationListeners := x;
     finishHydrationListeners := finishHydrationListeners w |}.

Definition set_finishHydrationListeners (x : list Listener) (w : world)
  : world :=
  {| state := state w; medium := medium w; providerCalls := providerCalls w;
     log := log w; options := options w;
     persistentStorage := persistentStorage w; hasHydrated := hasHydrated w;
     initialStateFromPersistentStorage := initialStateFromPersistentStorage w;
     hydrationListeners := hydrationListeners w;
     finishHydrationListeners := x |}.

(** ** The monad of JavaScript computations

    A thrown error keeps the effects made before it. *)

Definition Js (A : Type) : Type := world → outcome A * world.

Definition ret {A} (a : A) : Js A := λ w, (Ret a, w).

Definition throw {A} (e : error) : Js A := λ w, (Throw e, w).

Definition bind {A B} (c : Js A) (k : A → Js B) : Js B :=
  λ w, match c w with
       | (Ret a, w') => k a w'
       | (Throw e, w') => (Throw e, w')
       end.

(** [try { c } catch (e) { h(e) }]. *)
Definition tryCatch {A} (c : Js A) (h : error → Js A) : Js A :=
  λ w, match c w with
       | (Ret a, w') => (Ret a, w')
       | (Throw e, w') => h e w'
       end.

Declare Scope js_scope.
Delimit Scope js_scope with js.
Notation "x <- c ;; k" := (bind c (λ x, k))
  (at level 100, c at next level, right associativity) : js_scope.
Notation "c ;; k" := (bind c (λ _, k))
  (at level 100, right associativity) : js_scope.
Local Open Scope js_scope.

Definition gets {A} (f : world → A) : Js A := λ w, (Ret (f w), w).

Definition modify (f : world → world) : Js unit := λ w, (Ret tt, f w).

(** A pure host or user function called from the middleware. *)
Definition call {A} (o : outcome A) : Js A := λ w, (o, w).

Definition trace (e : event) : Js unit :=
  modify (λ w, set_log (log w ++ [e]) w).

(** ** Utilities *)

(** [tryElse]: the fallback gets whatever [result] throws. *)
Definition tryElse {T} (result : Js T) (fallback : error → Js T) : Js T :=
  tryCatch result fallback.

(** The arguments [...a] of a [setState] call: a partial record or an
    updater function, and the [replace] flag. *)
Inductive SetArg :=
| Partial (p : EState)
| Updater (f : option EState → EState).

Definition SetArgs : Type := SetArg * bool.

Definition Setter : Type := SetArgs → Js unit.

(** The function-valued properties of a store handle, by property name. *)
Abbreviation StoreHandle := (gmap string Setter).

(** What calling [undefined] throws. *)
Definition typeError : error := "TypeError".

(** Calling the value of a property that may be missing. *)
Definition callSetter (f : option Setter) (a : SetArgs) : Js unit :=
  match f with
  | Some g => g a
  | None => throw typeError
  end.

(** [update] of the mutator-chain variant:
    [Object.assign(t, { [k]: replacer(t[k]) })], a computed key.  The source
    mutates [t] and returns it; here the updated handle is the result. *)
Definition update (t : StoreHandle) (k : string)
    (replacer : option Setter → Setter) : StoreHandle :=
  let original := t !! k in
  <[k := replacer original]> t.

(** [emitter(listeners).emit]: [Set.forEach] in insertion order; a listener
    that throws ends the walk. *)
Fixpoint emit (listeners : list Listener) (a : option EState) : Js unit :=
  match listeners with
  | [] => ret tt
  | f :: rest =>
      trace (ListenerCalled (lid f) a) ;;
      call (lcall f a) ;;
      emit rest a
  end.

(** [Set.add] and [Set.delete], by identity of the listener. *)
Definition setAdd (l : Listener) (ls : list Listener) : list Listener :=
  if bool_decide (lid l ∈ lid <$> ls) then ls else ls ++ [l].

Definition setDelete (l : Listener) (ls : list Listener) : list Listener :=
  filter (λ x, lid x ≠ lid l) ls.

Definition hasThen {R} (r : Returned R) : bool :=
  match r with
  | Thenish _ => true
  | Plain _ => false
  end.

(** [thenablify(f, throwImmediately)(...a)]. *)
Definition thenablify {A R} (f : A → Js (Returned R))
    (throwImmediately : bool) (a : A) : Js (Thenable R) :=
  tryCatch
    (r <- f a ;;
     match r with
     | Thenish t => ret t                          (* hasThen(r): r itself *)
     | Plain v => ret (Fulfilled v throwImmediately)
     end)
    (λ error,
       if throwImmediately then throw error
       else ret (Rejected error throwImmediately)).

(** [this.then(f)]: the [then] method of a thenable; on a record whose
    [then] member is no function the call throws. *)
Definition then_ {T U} (this : Thenable T) (f : T → Js (Returned U))
  : Js (Thenable U) :=
  match this with
  | Fulfilled r throwImmediately => thenablify f throwImmediately r
  | Rejected e throwImmediately => ret (Rejected e throwImmediately)
  | PromiseLike p => ret (PromiseLike (Chained p))
  | RecordWithThen _ => throw typeError
  end.

(** [this.catch(f)]: the [catch] method of a thenable; a record has no
    [catch] member that could be called. *)
Definition catch_ {T} (this : Thenable T) (f : error → Js (Returned T))
  : Js (Thenable T) :=
  match this with
  | Fulfilled r throwImmediately => ret (Fulfilled r throwImmediately)
  | Rejected e throwImmediately => thenablify f throwImmediately e
  | PromiseLike p => ret (PromiseLike (Chained p))
  | RecordWithThen _ => throw typeError
  end.

(** [hasThen] on a state record: it has a member named [then] (no field
    value is [undefined]). *)
Definition thenMember (s : EState) : bool :=
  match s !! "then" with
  | Some _ => true
  | None => false
  end.

(** A state as a stage returns it: [hasThen] decides whether [thenablify]
    wraps it or hands the record itself back. *)
Definition returnedState (s : EState) : Returned Persisted :=
  if thenMember s then Thenish (RecordWithThen s) else Plain (PState s).

(** What [migrate] returns, as a stage returns it. *)
Definition returnedMigrated (m : MaybePromise EState) : Returned Persisted :=
  match m with
  | Now s => returnedState s
  | Later p => Thenish (PromiseLike p)
  end.

Definition mapMaybePromise {T U} (g : T → U) (m : MaybePromise T)
  : Returned U :=
  match m with
  | Now r => Plain (g r)
  | Later p => Thenish (PromiseLike p)
  end.

(** ** Options *)

(** The optional members of [EPersistOptions]: [None] is a missing key; for
    the three members the code tests for presence, [Some None] is a key
    given as [undefined]. *)
Record OptionalMembers := {
  o_getStorage : option (option Provider);
  o_serialize :
    option (EPersistentStorageValue → outcome (MaybePromise Serialized));
  o_deserialize :
    option (Serialized → outcome (MaybePromise EPersistentStorageValue));
  o_partialize : option (EState → outcome EState);
  o_onRehydrateStorage :
    option (option (option EState → outcome (option PostRehydrationCallback)));
  o_version : option Z;
  o_migrate : option (option (EState → Z → outcome (MaybePromise EState)));
  o_merge : option (Persisted → EState → outcome EState)
}.

(** No optional member given. *)
Definition noMembers : OptionalMembers :=
  {| o_getStorage := None; o_serialize := None; o_deserialize := None;
     o_partialize := None; o_onRehydrateStorage := None; o_version := None;
     o_migrate := None; o_merge := None |}.

(** [EPersistOptions]: what the caller of [persist] passes. *)
Record EPersistOptions := {
  e_name : string;
  e_members : OptionalMembers
}.

(** [Partial<EPersistOptions>]: what the caller of [setOptions] passes. *)
Record PartialEPersistOptions := {
  new_name : option string;
  new_members : OptionalMembers
}.

(** The globals the defaults refer to. *)
Record Host := {
  localStorage : Provider;
  JSON_stringify : EPersistentStorageValue → outcome Serialized;
  JSON_parse : Serialized → outcome EPersistentStorageValue
}.

(** [EPersistDefaultedOptions]. *)
Record EPersistDefaultedOptions := {
  d_getStorage : Provider;
  d_serialize : EPersistentStorageValue → outcome (MaybePromise Serialized);
  d_deserialize : Serialized → outcome (MaybePromise EPersistentStorageValue);
  d_partialize : EState → outcome EState;
  d_version : Z;
  d_merge : Persisted → EState → outcome EState
}.

Definition liftNow {A B} (f : A → outcome B) (a : A)
  : outcome (MaybePromise B) :=
  match f a with
  | Ret b => Ret (Now b)
  | Throw e => Throw e
  end.

Definition defaultOptions (h : Host) : EPersistDefaultedOptions :=
  {| d_getStorage := localStorage h;
     d_serialize := liftNow (JSON_stringify h);
     d_deserialize := liftNow (JSON_parse h);
     d_partialize := λ x, Ret x;
     d_version := 0;
     d_merge := λ persistedState currentState,
       Ret (spread currentState (fieldsOf persistedState)) |}.

(** [{ ...options, ...members }]. *)
Definition spreadMembers (o : Options) (m : OptionalMembers) : Options :=
  {| name := name o;
     getStorage := default (getStorage o) (o_getStorage m);
     serialize := default (serialize o) (o_serialize m);
     deserialize := default (deserialize o) (o_deserialize m);
     partialize := default (partialize o) (o_partialize m);
     onRehydrateStorage :=
       default (onRehydrateStorage o) (o_onRehydrateStorage m);
     version := default (version o) (o_version m);
     migrate := default (migrate o) (o_migrate m);
     merge := default (merge o) (o_merge m) |}.

(** [{ ...defaultOptions, ..._options }]. *)
Definition spreadDefaults (d : EPersistDefaultedOptions)
    (_options : EPersistOptions) : Options :=
  spreadMembers
    {| name := e_name _options;
       getStorage := Some (d_getStorage d);
       serialize := d_serialize d;
       deserialize := d_deserialize d;
       partialize := d_partialize d;
       onRehydrateStorage := None;
       version := d_version d;
       migrate := None;
       merge := d_merge d |}
    (e_members _options).

(** [{ ...options, ...newOptions }]. *)
Definition spreadOptions (o : Options) (newOptions : PartialEPersistOptions)
  : Options :=
  let o' := spreadMembers o (new_members newOptions) in
  {| name := default (name o') (new_name newOptions);
     getStorage := getStorage o';
     serialize := serialize o';
     deserialize := deserialize o';
     partialize := partialize o';
     onRehydrateStorage := onRehydrateStorage o';
     version := version o';
     migrate := migrate o';
     merge := merge o' |}.

Module messages.
Definition noPersistentStorage (name : string) : string :=
  ("[zustand persist middleware] Unable to update item '" ++ name ++ "', "
   ++ "the given storage is currently unavailable.")%string.
Definition couldNotMigrate : string :=
  ("[zustand persist middleware] State loaded from storage couldn't be migrated "
   ++ "since no migrate function was provided")%string.
End messages.

(** ** The persist middleware *)

(** Calling a storage provider: the host counts the call. *)
Definition callProvider (g : Provider) : Js (option EPersistentStorage) :=
  n <- gets providerCalls ;;
  modify (set_providerCalls (S n)) ;;
  call (g n).

(** [persistentStorage!.m(..)]: a method of the handle, run on the medium. *)
Definition storageMethod {A}
    (m : EPersistentStorage → gmap string Serialized →
         outcome A * gmap string Serialized) : Js A :=
  ps <- gets persistentStorage ;;
  match ps with
  | None => throw typeError
  | Some st =>
      λ w, let (r, data) := m st (medium w) in (r, set_medium data w)
  end.

Definition persistentStorageGetItem (_ : unit)
  : Js (Returned (option Serialized)) :=
  o <- gets options ;;
  r <- storageMethod (λ st data, (getItem st (name o) data, data)) ;;
  ret (ofMaybePromise r).

Definition persistentStorageSetItem (serializedState : Serialized)
  : Js (Returned unit) :=
  o <- gets options ;;
  r <- storageMethod (λ st, setItem st (name o) serializedState) ;;
  ret (ofMaybePromise r).

Definition persistentStorageRemoveItem : Js (Returned unit) :=
  o <- gets options ;;
  r <- storageMethod (λ st, removeItem st (name o)) ;;
  ret (ofMaybePromise r).

(** The persist namespace put on the store handle. *)
Record EPersistStore := {
  persist_setOptions : PartialEPersistOptions → Js unit;
  persist_clearStorage : Js (Returned unit);
  persist_rehydrate : Js (Thenable unit);
  persist_hasHydrated : Js bool;
  persist_onHydrate : Listener → Js (Js unit);
  persist_onFinishHydration : Listener → Js (Js unit)
}.

Definition StoreInitializer : Type :=
  Setter → Js (option EState) → StoreHandle → Js EState.

Definition setHasHydrated (b : bool) : Js unit :=
  trace (HasHydratedSet b) ;;
  modify (set_hasHydrated b).

Section PersistImpl.
Variable parentSet : Setter.
Variable parentGet : Js (option EState).

Definition warnNoPersistentStorage : Js unit :=
  o <- gets options ;;
  trace (ConsoleWarn (messages.noPersistentStorage (name o))).

(** The [set] handed to the initializer when there is no storage. *)
Definition unpersistedSet : Setter :=
  λ a, warnNoPersistentStorage ;; parentSet a.

(** The replacer of [setState] when there is no storage. *)
Definition unpersistedReplacer (setState : option Setter) : Setter :=
  λ a, warnNoPersistentStorage ;; callSetter setState a.

Definition updatePersistentStorage : Js (Thenable unit) :=
  o <- gets options ;;
  s <- parentGet ;;
  selected <- call (partialize o (spread ∅ (fieldsOfState s))) ;;
  t <- thenablify
         (λ storageValue,
            r <- call (serialize o storageValue) ;; ret (ofMaybePromise r))
         true
         {| env_state := selected; env_version := Some (version o) |} ;;
  then_ t persistentStorageSetItem.

(** The [set] handed to the initializer. *)
Definition persistedSet : Setter :=
  λ a, parentSet a ;; updatePersistentStorage ;; ret tt.

(** The replacer of [setState]. *)
Definition persistedReplacer (setState : option Setter) : Setter :=
  λ a, callSetter setState a ;; updatePersistentStorage ;; ret tt.

Variable initialState : EState.

(** [postRehydrationCallback?.(state, error)]. *)
Definition callPostRehydration
    (postRehydrationCallback : option PostRehydrationCallback)
    (s : option EState) (e : option error) : Js unit :=
  match postRehydrationCallback with
  | None => ret tt
  | Some f => trace (PostRehydrationCalled s e) ;; call (f s e)
  end.

(** [serialized => serialized !== null ? options.deserialize(serialized) : null] *)
Definition deserializeStage (serialized : option Serialized)
  : Js (Returned (option EPersistentStorageValue)) :=
  match serialized with
  | Some text =>
      o <- gets options ;;
      r <- call (deserialize o text) ;;
      ret (mapMaybePromise Some r)
  | None => ret (Plain None)
  end.

(** The version stage.  What it returns goes through [hasThen] in
    [thenablify]: a state is returned as [returnedState] has it. *)
Definition versionStage (storageValue : option EPersistentStorageValue)
  : Js (Returned Persisted) :=
  match storageValue with
  | None => ret (Plain PNull)
  | Some sv =>
      match env_version sv with
      | None => ret (returnedState (env_state sv))
      | Some v =>
          o <- gets options ;;
          if bool_decide (v = version o)
          then ret (returnedState (env_state sv))
          else
            match migrate o with
            | None =>
                trace (ConsoleError messages.couldNotMigrate) ;;
                ret (Plain PUndefined)
            | Some f =>
                r <- call (f (env_state sv) v) ;;
                ret (returnedMigrated r)
            end
      end
  end.

(** The merge stage. *)
Definition mergeStage (migratedState : Persisted) : Js (Returned unit) :=
  o <- gets options ;;
  merged <- call (merge o migratedState initialState) ;;
  modify (set_initialStateFromPersistentStorage (Some merged)) ;;
  parentSet (Partial merged, true) ;;
  t <- updatePersistentStorage ;;
  ret (Thenish t).

(** The stage after the merge. *)
Definition finishStage
    (postRehydrationCallback : option PostRehydrationCallback) (_ : unit)
  : Js (Returned unit) :=
  s <- gets initialStateFromPersistentStorage ;;
  callPostRehydration postRehydrationCallback s None ;;
  setHasHydrated true ;;
  listeners <- gets finishHydrationListeners ;;
  emit listeners s ;;
  ret (Plain tt).

(** The handler of the final [catch]. *)
Definition catchStage
    (postRehydrationCallback : option PostRehydrationCallback)
    (error : error) : Js (Returned unit) :=
  callPostRehydration postRehydrationCallback None (Some error) ;;
  ret (Plain tt).

(** The thenable chain of [hydrate]. *)
Definition hydrateChain
    (postRehydrationCallback : option PostRehydrationCallback)
  : Js (Thenable unit) :=
  t0 <- thenablify persistentStorageGetItem false tt ;;
  t1 <- then_ t0 deserializeStage ;;
  t2 <- then_ t1 versionStage ;;
  t3 <- then_ t2 mergeStage ;;
  t4 <- then_ t3 (finishStage postRehydrationCallback) ;;
  catch_ t4 (catchStage postRehydrationCallback).

(** [hydrationEmitter.emit(parentGet())] and
    [options.onRehydrateStorage?.(parentGet()) || undefined]. *)
Definition announceHydration : Js (option PostRehydrationCallback) :=
  s <- parentGet ;;
  listeners <- gets hydrationListeners ;;
  emit listeners s ;;
  o <- gets options ;;
  match onRehydrateStorage o with
  | None => ret None
  | Some f =>
      s' <- parentGet ;;
      trace (OnRehydrateStorageCalled s') ;;
      call (f s')
  end.

(** What precedes the chain: the flag first, then the announcement. *)
Definition hydratePrelude : Js (option PostRehydrationCallback) :=
  setHasHydrated false ;;
  announceHydration.

Definition hydrate : Js (Thenable unit) :=
  postRehydrationCallback <- hydratePrelude ;;
  hydrateChain postRehydrationCallback.

Definition setOptions (newOptions : PartialEPersistOptions) : Js unit :=
  modify (λ w, set_options (spreadOptions (options w) newOptions) w) ;;
  o <- gets options ;;
  match getStorage o with
  | Some g =>
      st <- callProvider g ;;
      modify (set_persistentStorage st)
  | None => ret tt
  end.

Definition onHydrate (listener : Listener) : Js (Js unit) :=
  modify (λ w, set_hydrationListeners
                 (setAdd listener (hydrationListeners w)) w) ;;
  ret (modify (λ w, set_hydrationListeners
                      (setDelete listener (hydrationListeners w)) w)).

Definition onFinishHydration (listener : Listener) : Js (Js unit) :=
  modify (λ w, set_finishHydrationListeners
                 (setAdd listener (finishHydrationListeners w)) w) ;;
  ret (modify (λ w, set_finishHydrationListeners
                      (setDelete listener (finishHydrationListeners w)) w)).

Definition persistNamespace : EPersistStore :=
  {| persist_setOptions := setOptions;
     persist_clearStorage := persistentStorageRemoveItem;
     persist_rehydrate := hydrate;
     persist_hasHydrated := gets hasHydrated;
     persist_onHydrate := onHydrate;
     persist_onFinishHydration := onFinishHydration |}.
End PersistImpl.

(** [persistImpl(storeInitializer, _options)(parentSet, parentGet, parentStore)].
    The result carries, besides the returned state, the store handle as the
    call leaves it and the persist namespace when one was put on it. *)
Definition persistImpl (h : Host) (storeInitializer : StoreInitializer)
    (_options : EPersistOptions)
    (parentSet : Setter) (parentGet : Js (option EState))
    (parentStore : StoreHandle)
  : Js (EState * StoreHandle * option EPersistStore) :=
  modify (set_options (spreadDefaults (defaultOptions h) _options)) ;;
  o <- gets options ;;
  st <- tryElse
          (match getStorage o with
           | Some g => callProvider g
           | None => throw typeError
           end)
          (λ _, ret None) ;;
  modify (set_persistentStorage st) ;;
  match st with
  | None =>
      let store := update parentStore "setState" unpersistedReplacer in
      s <- storeInitializer (unpersistedSet parentSet) parentGet store ;;
      ret (s, store, None)
  | Some _ =>
      let store :=
        update parentStore "setState" (persistedReplacer parentGet) in
      initialState <-
        storeInitializer (persistedSet parentSet parentGet) parentGet store ;;
      modify (set_initialStateFromPersistentStorage None) ;;
      modify (set_hasHydrated false) ;;
      modify (set_hydrationListeners []) ;;
      modify (set_finishHydrationListeners []) ;;
      hydrate parentSet parentGet initialState ;;
      fromStorage <- gets initialStateFromPersistentStorage ;;
      ret (default initialState fromStorage, store,
           Some (persistNamespace parentSet parentGet initialState))
  end.

(** ** The context-store variant

    Its [persistImpl] differs from the one above in [update] and in the write
    chain, which ends in a [throw()] of a utilities module that is not among
    the sources; the write is therefore a parameter here. *)
Module ContextStore.
(** [Object.assign(t, { k: replacer(t[k]) })]: the key is the name [k]. *)
Definition update (t : StoreHandle) (k : string)
    (replacer : option Setter → Setter) : StoreHandle :=
  let original := t !! k in
  <["k" := replacer original]> t.

Section Variant.
Variable updatePersistentStorage : Js unit.

Definition persistedReplacer (setState : option Setter) : Setter :=
  λ a, callSetter setState a ;; updatePersistentStorage.

(** The store handle the initializer receives. *)
Definition initializerStore (parentStore : StoreHandle) : StoreHandle :=
  update parentStore "setState" persistedReplacer.
End Variant.
End ContextStore.

(** The store handle the initializer receives in the mutator-chain variant. *)
Definition initializerStore (parentGet : Js (option EState))
    (parentStore : StoreHandle) : StoreHandle :=
  update parentStore "setState" (persistedReplacer parentGet).

(** ** The Store Engine *)

(** Modelled from the spec: the Store Engine ([../vanilla] is not among the
    sources).  [setState(partialOrFn, replace?)]: the produced value replaces
    the state when [replace] is true and is shallow-merged onto the previous
    state otherwise.  Subscribers of the store are not modelled. *)
Definition nextState (a : SetArgs) (previous : option EState) : EState :=
  let produced :=
    match a.1 with
    | Partial p => p
    | Updater f => f previous
    end in
  if a.2 then produced else spread (fieldsOfState previous) produced.

Definition setState : Setter :=
  λ a, modify (λ w, set_state (Some (nextState a (state w))) w).

Definition getState : Js (option EState) := gets state.

(** Modelled from the spec: a store is constructed by running its initializer
    with the engine's [setState], [getState] and handle; the state the
    initializer returns becomes the current state. *)
Definition createStore
    (createState : Setter → Js (option EState) → StoreHandle →
                   Js (EState * StoreHandle * option EPersistStore))
  : Js (StoreHandle * option EPersistStore) :=
  let api : StoreHandle := {[ "setState" := setState ]} in
  r <- createState setState getState api ;;
  modify (set_state (Some r.1.1)) ;;
  ret (r.1.2, r.2).

(** ** Concrete hosts and stores, for running the model *)

(** A synchronous key-value storage, like [localStorage]. *)
Definition memoryStorage : EPersistentStorage :=
  {| getItem := λ k data, Ret (Now (data !! k));
     setItem := λ k v data, (Ret (Now tt), <[k := v]> data);
     removeItem := λ k data, (Ret (Now tt), delete k data) |}.

(** A storage whose writes throw (a full quota). *)
Definition fullStorage : EPersistentStorage :=
  {| getItem := λ k data, Ret (Now (data !! k));
     setItem := λ k v data, (Throw "QuotaExceededError", data);
     removeItem := λ k data, (Ret (Now tt), delete k data) |}.

(** The state [{ count: n }]. *)
Definition counter (n : Z) : EState := {[ "count" := VNum n ]}.

(** A serializer for counters: it keeps the version and the count, and the
    text is the version's and the count's table entry. *)
Definition countOf (s : EState) : Z :=
  match s !! "count" with
  | Some (VNum n) => n
  | _ => 0
  end.

Definition digit (n : Z) : string :=
  match n with
  | 0%Z => "0" | 1%Z => "1" | 2%Z => "2" | 3%Z => "3" | 4%Z => "4"
  | 5%Z => "5" | 6%Z => "6" | 7%Z => "7" | 8%Z => "8" | _ => "9"
  end.

Definition undigit (c : string) : Z :=
  if bool_decide (c = "0") then 0 else if bool_decide (c = "1") then 1
  else if bool_decide (c = "2") then 2 else if bool_decide (c = "3") then 3
  else if bool_decide (c = "4") then 4 else if bool_decide (c = "5") then 5
  else if bool_decide (c = "6") then 6 else if bool_decide (c = "7") then 7
  else if bool_decide (c = "8") then 8 else 9.

Definition counterStringify (v : EPersistentStorageValue)
  : outcome Serialized :=
  Ret (digit (default 0%Z (env_version v)) ++ digit (countOf (env_state v)))%string.

Definition counterParse (text : Serialized)
  : outcome EPersistentStorageValue :=
  match text with
  | String v (String c EmptyString) =>
      Ret {| env_state := counter (undigit (String c EmptyString));
             env_version := Some (undigit (String v EmptyString)) |}
  | _ => Throw "SyntaxError"
  end.

Definition counterHost : Host :=
  {| localStorage := λ _, Ret (Some memoryStorage);
     JSON_stringify := counterStringify;
     JSON_parse := counterParse |}.

(** The world before any store is made. *)
Definition emptyWorld (h : Host) (data : gmap string Serialized) : world :=
  {| state := None; medium := data; providerCalls := 0; log := [];
     options := spreadDefaults (defaultOptions h)
                  {| e_name := ""; e_members := noMembers |};
     persistentStorage := None; hasHydrated := false;
     initialStateFromPersistentStorage := None;
     hydrationListeners := []; finishHydrationListeners := [] |}.

(** ** Notions used in the statements *)

(** A thenable followed by a run of [then] stages. *)
Fixpoint thenAll {T} (stages : list (T → Js (Returned T))) (t : Thenable T)
  : Js (Thenable T) :=
  match stages with
  | [] => ret t
  | f :: rest => t' <- then_ t f ;; thenAll rest t'
  end.

(** A thenable followed by a run of [catch] stages. *)
Fixpoint catchAll {T} (handlers : list (error → Js (Returned T)))
    (t : Thenable T) : Js (Thenable T) :=
  match handlers with
  | [] => ret t
  | f :: rest => t' <- catch_ t f ;; catchAll rest t'
  end.

(** [keeps F c]: running [c] leaves the part [F] of the world as it was. *)
Definition keeps {X A} (F : world → X) (c : Js A) : Prop :=
  ∀ w, F (c w).2 = F w.

(** The writes of the hydration flag in a trace, in order. *)
Definition flagWrite (e : event) : option bool :=
  match e with
  | HasHydratedSet b => Some b
  | _ => None
  end.

Definition flagWrites (l : list event) : list bool := omap flagWrite l.

(** [rehydrate()] of a store whose parent is the Store Engine. *)
Definition rehydrate (initialState : EState) : Js (Thenable unit) :=
  hydrate setState getState initialState.

(** The members of a world the hydration pipeline reads its functions from. *)
Definition config (w : world) : Options * option EPersistentStorage :=
  (options w, persistentStorage w).

(** Synchronous collaborators: none of them returns a promise. *)
Definition syncStorage (ps : option EPersistentStorage) : Prop :=
  ∀ st, ps = Some st → ∀ k data,
    (∀ p, getItem st k data ≠ Ret (Later p))
    ∧ (∀ v p, (setItem st k v data).1 ≠ Ret (Later p)).

Definition syncSerializer (o : Options) : Prop :=
  ∀ v p, serialize o v ≠ Ret (Later p).

Definition syncDeserializer (o : Options) : Prop :=
  ∀ text p, deserialize o text ≠ Ret (Later p).

Definition syncMigrate (o : Options) : Prop :=
  ∀ f, migrate o = Some f → ∀ s v p, f s v ≠ Ret (Later p).

(** A thenable that is not waiting for a promise. *)
Definition isSettled {T} (t : Thenable T) : bool :=
  match t with
  | PromiseLike _ => false
  | Fulfilled _ _ | Rejected _ _ | RecordWithThen _ => true
  end.

(** A call has run to its end: it threw, or returned a settled thenable. *)
Definition settledOutcome {T} (r : outcome (Thenable T)) : Prop :=
  match r with
  | Ret t => isSettled t = true
  | Throw _ => True
  end.

Definition syncConfig (c : Options * option EPersistentStorage) : Prop :=
  syncStorage c.2 ∧ syncSerializer c.1 ∧ syncDeserializer c.1
  ∧ syncMigrate c.1.

(** A world whose storage backend, serializer, deserializer and migrate
    function are synchronous. *)
Definition synchronous (w : world) : Prop := syncConfig (config w).

(** How a [rehydrate()] call that has run to its end can end, with the value
    of the flag then: every stage ran; or an error reached the final [catch],
    whose handler returned or threw; or the call itself threw, before the
    chain or in the stage after the merge. *)
Inductive hydrationEnd : outcome (Thenable unit) → bool → Prop :=
| end_completed : hydrationEnd (Ret (Fulfilled tt true)) true
| end_routed : hydrationEnd (Ret (Fulfilled tt false)) false
| end_handler_threw e : hydrationEnd (Ret (Rejected e false)) false
| end_thrown e b : hydrationEnd (Throw e) b.

(** A thenable a stage in the default mode gives back. *)
Definition defaultMode {T} (t : Thenable T) : Prop :=
  match t with
  | Fulfilled _ ti | Rejected _ ti => ti = false
  | PromiseLike _ | RecordWithThen _ => False
  end.

(** What the merge stage gives back: the thenable of a storage write that
    went through, or a rejection. *)
Definition writeMode (t : Thenable unit) : Prop :=
  match t with
  | Fulfilled _ ti => ti = true
  | Rejected _ ti => ti = false
  | PromiseLike _ | RecordWithThen _ => False
  end.

(** A stage result that is no thenable. *)
Definition plainOrThrow {T} (r : outcome (Returned T)) : Prop :=
  match r with
  | Ret (Thenish _) => False
  | Ret (Plain _) | Throw _ => True
  end.

(** A stage result that is no promise and no thenable of [thenablify]: a
    plain value, a state record with a [then] member, or an error. *)
Definition plainOrRecord {T} (r : outcome (Returned T)) : Prop :=
  match r with
  | Ret (Thenish (RecordWithThen _)) | Ret (Plain _) | Throw _ => True
  | Ret (Thenish _) => False
  end.

(** What the version stage gives back when nothing is deferred: a thenable
    in the default mode, or a state record that has a [then] member. *)
Definition defaultOrRecord {T} (t : Thenable T) : Prop :=
  match t with
  | Fulfilled _ ti | Rejected _ ti => ti = false
  | RecordWithThen _ => True
  | PromiseLike _ => False
  end.

(** What the read stages leave alone on the way. *)
Definition standing (w : world)
  : Options * option EPersistentStorage * bool :=
  (config w, hasHydrated w).

(** The hydration flag and its writes. *)
Definition flags (w : world) : list bool * bool :=
  (flagWrites (log w), hasHydrated w).

(** The chain of [hydrate] up to and including the merge stage. *)
Definition throughMergeStage (initialState : EState) : Js (Thenable unit) :=
  t0 <- thenablify persistentStorageGetItem false tt ;;
  t1 <- then_ t0 deserializeStage ;;
  t2 <- then_ t1 versionStage ;;
  then_ t2 (mergeStage setState getState initialState).

(** Whether the post-rehydration callback, called on [s] and no error,
    returns; there may be none. *)
Definition callbackPasses (cb : option PostRehydrationCallback)
    (s : option EState) : bool :=
  match cb with
  | Some f =>
      match f s None with
      | Ret _ => true
      | Throw _ => false
      end
  | None => true
  end.

(** Whether a pass started in [w] gets to set the flag: the announcement
    returns, the chain up to the merge stage returns a fulfilled thenable
    (no stage failed, none was handed to a promise), and the
    post-rehydration callback, called first in the stage after the merge,
    returns. *)
Definition setsFlag (initialState : EState) (w : world) : bool :=
  match hydratePrelude getState w with
  | (Ret cb, w0) =>
      match throughMergeStage initialState w0 with
      | (Ret (Fulfilled _ _), w3) =>
          callbackPasses cb (initialStateFromPersistentStorage w3)
      | _ => false
      end
  | (Throw _, _) => false
  end.

(** The rest of the chain of [hydrate] once the version stage has produced
    [migratedState]: the merge stage is called with it, then the stage
    after the merge, then the final [catch]. *)
Definition fromMergeStage (initialState : EState)
    (postRehydrationCallback : option PostRehydrationCallback)
    (migratedState : Persisted) : Js (Thenable unit) :=
  t3 <- then_ (Fulfilled migratedState false)
          (mergeStage setState getState initialState) ;;
  t4 <- then_ t3 (finishStage postRehydrationCallback) ;;
  catch_ t4 (catchStage postRehydrationCallback).

(** A provider that cannot give a storage at this call. *)
Definition providerFails (g : option Provider) (n : nat) : Prop :=
  match g with
  | Some f => (∃ e, f n = Throw e) ∨ f n = Ret None
  | None => True
  end.

(** ** Concrete stores used as inputs *)

(** A provider that finds a storage at its first call only. *)
Definition flakyProvider : Provider :=
  λ n, match n with
       | O => Ret (Some memoryStorage)
       | S _ => Ret None
       end.

Definition flakyHost : Host :=
  {| localStorage := flakyProvider;
     JSON_stringify := counterStringify;
     JSON_parse := counterParse |}.

(** The world left by creating a persisted counter store named ["app"], with
    initial state [{ count: 0 }], over the given medium. *)
Definition counterStore (h : Host) (members : OptionalMembers)
    (data : gmap string string) : world :=
  (createStore
     (persistImpl h (λ _ _ _, ret (counter 0))
        {| e_name := "app"; e_members := members |})
     (emptyWorld h data)).2.

(** [{ version: v }]. *)
Definition onlyVersion (v : Z) : PartialEPersistOptions :=
  {| new_name := None;
     new_members :=
       {| o_getStorage := None; o_serialize := None; o_deserialize := None;
          o_partialize := None; o_onRehydrateStorage := None;
          o_version := Some v; o_migrate := None; o_merge := None |} |}.

(** [{ version: 1, migrate: async () => .. }]. *)
Definition asyncMigrate : OptionalMembers :=
  {| o_getStorage := None; o_serialize := None; o_deserialize := None;
     o_partialize := None; o_onRehydrateStorage := None;
     o_version := Some 1%Z;
     o_migrate := Some (Some (λ _ _, Ret (Later (HostPromise 0))));
     o_merge := None |}.

(** A post-rehydration callback that returns, and a listener that throws. *)
Definition quietCallback : PostRehydrationCallback := λ _ _, Ret tt.

Definition withCallback : OptionalMembers :=
  {| o_getStorage := None; o_serialize := None; o_deserialize := None;
     o_partialize := None;
     o_onRehydrateStorage := Some (Some (λ _, Ret (Some quietCallback)));
     o_version := None; o_migrate := None; o_merge := None |}.

Definition throwingListener : Listener :=
  {| lid := 1; lcall := λ _, Throw "listener failed" |}.

(** A setter that only throws. *)
Definition alwaysThrows : Setter := λ _, throw "replaced".

(** A stage that records its call on the console and returns its argument. *)
Definition noisyStage (x : Z) : Js (Returned Z) :=
  trace (ConsoleWarn "stage") ;; ret (Plain x).

(** The state [{ then: 1 }], and a host whose JSON functions are given on
    the one envelope that holds it. *)
Definition thenState : EState := {[ "then" := VNum 1 ]}.

Definition thenHost : Host :=
  {| localStorage := λ _, Ret (Some memoryStorage);
     JSON_stringify := λ _, Ret "then:1";
     JSON_parse :=
       λ _, Ret {| env_state := thenState; env_version := Some 0%Z |} |}.

(** ** Claims as the specification words them, where the code differs *)

(** "[update(t, k, replacer)] of the context-store variant leaves [t[k]]
    unchanged and assigns [replacer(t[k])] under the name [k]", for every
    [t], [k] and [replacer]. *)
Definition update_context_claim : Prop :=
  ∀ (t : StoreHandle) (k : string) (replacer : option Setter → Setter),
    ContextStore.update t k replacer !! k = t !! k
    ∧ ContextStore.update t k replacer !! "k" = Some (replacer (t !! k)).

(** "The flag goes from false to true exactly once per [rehydrate()] call." *)
Definition hydrated_once_claim : Prop :=
  ∀ (initialState : EState) (w : world),
    let w' := (rehydrate initialState w).2 in
    flagWrites (log w') = flagWrites (log w) ++ [false; true]
    ∧ hasHydrated w' = true.

(** "With a synchronous storage backend, serializer and deserializer the
    pipeline of [rehydrate()] has run to its end when [rehydrate()]
    returns." *)
Definition synchronous_pipeline_claim : Prop :=
  ∀ (initialState : EState) (w : world),
    syncStorage (persistentStorage w) → syncSerializer (options w) →
    syncDeserializer (options w) →
    settledOutcome (rehydrate initialState w).1.

(** "When the stored version differs and there is no [migrate], under the
    default merge the in-memory state stays at its pre-hydration value." *)
Definition no_migrator_claim : Prop :=
  ∀ (initialState : EState) (w : world) (st : EPersistentStorage)
    (text : string) (sv : EPersistentStorageValue) (v : Z),
    persistentStorage w = Some st →
    getItem st (name (options w)) (medium w) = Ret (Now (Some text)) →
    deserialize (options w) text = Ret (Now sv) →
    env_version sv = Some v → v ≠ version (options w) →
    migrate (options w) = None →
    (∀ p s, merge (options w) p s = Ret (spread s (fieldsOf p))) →
    state (rehydrate initialState w).2 = state w.



(** ** Notions used in the further properties *)

(** A listener that returns when called on [a]. *)
Definition returnsAt (a : option EState) (g : Listener) : Prop :=
  lcall g a = Ret tt.

(** The calls of [listeners] on [a], as they appear in the trace. *)
Definition callsOf (listeners : list Listener) (a : option EState)
  : list event :=
  (λ f, ListenerCalled (lid f) a) <$> listeners.

(** The identities in a listener set. *)
Definition idsOf (listeners : list Listener) : list nat := lid <$> listeners.

(** A stage that returns a plain value or throws, whatever it is given. *)
Definition plainStage {A T} (f : A → Js (Returned T)) : Prop :=
  ∀ a w, plainOrThrow (f a w).1.

(** A thenable in throw-immediately mode that holds a value. *)
Definition fulfilledInWriteMode {T} (t : Thenable T) : Prop :=
  match t with
  | Fulfilled _ ti => ti = true
  | Rejected _ _ | PromiseLike _ | RecordWithThen _ => False
  end.

(** A thenable that is not in throw-immediately mode. *)
Definition notWriteMode {T} (t : Thenable T) : Prop :=
  match t with
  | Fulfilled _ ti | Rejected _ ti => ti = false
  | PromiseLike _ | RecordWithThen _ => True
  end.

(** [w'] is [w] with a longer log. *)
Definition logExtends (w w' : world) : Prop :=
  ∃ l, w' = set_log (log w ++ l) w.

(** How the announcement that opens [hydrate] can fail: a hydration listener
    throws, or they all return and [onRehydrateStorage] throws; [calls] are
    the calls made until then. *)
Definition announcementFails (w : world) (e : error) (calls : list event)
  : Prop :=
  (∃ before f after,
     hydrationListeners w = before ++ f :: after
     ∧ Forall (returnsAt (state w)) before
     ∧ lcall f (state w) = Throw e
     ∧ calls = callsOf (before ++ [f]) (state w))
  ∨ (Forall (returnsAt (state w)) (hydrationListeners w)
     ∧ ∃ g, onRehydrateStorage (options w) = Some g
            ∧ g (state w) = Throw e
            ∧ calls = callsOf (hydrationListeners w) (state w)
                      ++ [OnRehydrateStorageCalled (state w)]).

(** Where the read side of [hydrate] is handed to a promise: by the storage,
    by the deserializer, or by the migrate function; [n] is the number of
    [then] and [catch] calls chained to that promise. *)
Definition deferredAt (w : world) (p : promise) (n : nat) : Prop :=
  match persistentStorage w with
  | None => False
  | Some st =>
      let o := options w in
      (getItem st (name o) (medium w) = Ret (Later p) ∧ n = 5)
      ∨ ∃ text,
          getItem st (name o) (medium w) = Ret (Now (Some text))
          ∧ ((deserialize o text = Ret (Later p) ∧ n = 4)
             ∨ ∃ sv v f,
                 deserialize o text = Ret (Now sv)
                 ∧ env_version sv = Some v ∧ v ≠ version o
                 ∧ migrate o = Some f
                 ∧ f (env_state sv) v = Ret (Later p) ∧ n = 3)
  end.

(** How the read side of [hydrate] can fail: there is no handle, the storage
    throws, or the deserializer throws on the stored text. *)
Definition readFails (w : world) (e : error) : Prop :=
  match persistentStorage w with
  | None => e = typeError
  | Some st =>
      getItem st (name (options w)) (medium w) = Throw e
      ∨ ∃ text,
          getItem st (name (options w)) (medium w) = Ret (Now (Some text))
          ∧ deserialize (options w) text = Throw e
  end.

(** The write [updatePersistentStorage] makes of the state [s] in [w]: the
    selected part, serialized with the current version, is given to the
    storage, which returns and leaves the medium [data]. *)
Definition writtenAs (w : world) (s : EState) (data : gmap string Serialized)
  : Prop :=
  ∃ st selected text,
    persistentStorage w = Some st
    ∧ partialize (options w) s = Ret selected
    ∧ serialize (options w)
        {| env_state := selected; env_version := Some (version (options w)) |}
      = Ret (Now text)
    ∧ setItem st (name (options w)) text (medium w) = (Ret (Now tt), data).

(** The call of the post-rehydration callback, when there is one, as it
    appears in the trace, and that it returns. *)
Definition callbackCall (cb : option PostRehydrationCallback)
    (s : option EState) (e : option error) : list event :=
  match cb with
  | Some _ => [PostRehydrationCalled s e]
  | None => []
  end.

Definition callbackReturns (cb : option PostRehydrationCallback)
    (s : option EState) (e : option error) : Prop :=
  match cb with
  | Some f => f s e = Ret tt
  | None => True
  end.

(** Whether a stored version is taken as it is under the default options:
    there is none, or it is 0. *)
Definition currentVersion (v : option Z) : bool :=
  match v with
  | None => true
  | Some n => bool_decide (n = 0%Z)
  end.

(** What a store made with the default options restores from a stored
    envelope, given the state its initializer returned. *)
Definition restored (s0 : EState) (sv : EPersistentStorageValue) : EState :=
  if currentVersion (env_version sv) then spread s0 (env_state sv) else s0.

(** Further inputs: a listener that returns, a storage that answers with
    promises, and a host over the storage whose writes throw. *)
Definition quietListener : Listener := {| lid := 2; lcall := λ _, Ret tt |}.

Definition asyncStorage : EPersistentStorage :=
  {| getItem := λ k data, Ret (Later (HostPromise 0));
     setItem := λ k v data, (Ret (Later (HostPromise 1)), data);
     removeItem := λ k data, (Ret (Later (HostPromise 2)), data) |}.

Definition asyncHost : Host :=
  {| localStorage := λ _, Ret (Some asyncStorage);
     JSON_stringify := counterStringify;
     JSON_parse := counterParse |}.

Definition fullHost : Host :=
  {| localStorage := λ _, Ret (Some fullStorage);
     JSON_stringify := counterStringify;
     JSON_parse := counterParse |}.

(** [{ name: 'app2' }]. *)
Definition renamed : PartialEPersistOptions :=
  {| new_name := Some "app2"; new_members := noMembers |}.

(** The world of a counter store named ["app"] with the default options, a
    given handle and a given medium, before it is hydrated. *)
Definition counterWorld (h : Host) (st : option EPersistentStorage)
    (data : gmap string Serialized) : world :=
  {| state := Some (counter 0); medium := data; providerCalls := 1;
     log := [];
     options := spreadDefaults (defaultOptions h)
                  {| e_name := "app"; e_members := noMembers |};
     persistentStorage := st; hasHydrated := false;
     initialStateFromPersistentStorage := None;
     hydrationListeners := []; finishHydrationListeners := [] |}.


(** * Properties *)

(** ** Running the model *)



Lemma bind_Ret {A B} (c : Js A) (k : A → Js B) w a w' :
  c w = (Ret a, w') → bind c k w = k a w'.
Proof. intros H. unfold bind. by rewrite H. Qed.

Lemma bind_Throw {A B} (c : Js A) (k : A → Js B) w e w' :
  c w = (Throw e, w') → bind c k w = (Throw e, w').
Proof. intros H. unfold bind. by rewrite H. Qed.

(** [{ ...{}, ...s }], [{ ...s, ...undefined }] and [{ ...s, ...s }]. *)
Lemma spread_empty_l (s : EState) : spread ∅ s = s.
Proof. unfold spread. apply (right_id_L ∅ (∪)). Qed.

Lemma spread_undefined (s : EState) : spread s ∅ = s.
Proof. unfold spread. apply (left_id_L ∅ (∪)). Qed.


Lemma flagWrites_snoc (l : list event) (e : event) :
  flagWrites (l ++ [e])
  = flagWrites l ++ from_option (λ b, [b]) [] (flagWrite e).
Proof.
  unfold flagWrites. rewrite omap_app. simpl. by destruct (flagWrite e).
Qed.

(** ** The thenable adapter *)

Lemma thenAll_rejected {T} (stages : list (T → Js (Returned T))) e ti w :
  thenAll stages (Rejected e ti) w = (Ret (Rejected e ti), w).
Proof.
  induction stages as [|f rest IH]; [reflexivity|].
  simpl. unfold bind. simpl. apply IH.
Qed.

Lemma catchAll_fulfilled {T} (handlers : list (error → Js (Returned T)))
    r ti w :
  catchAll handlers (Fulfilled r ti) w = (Ret (Fulfilled r ti), w).
Proof.
  induction handlers as [|f rest IH]; [reflexivity|].
  simpl. unfold bind. simpl. apply IH.
Qed.

(** In the default mode nothing is thrown to the invoker. *)
Lemma thenablify_default_returns {A R} (f : A → Js (Returned R)) a w :
  ∃ t, (thenablify f false a w).1 = Ret t.
Proof.
  unfold thenablify, tryCatch, bind.
  destruct (f a w) as [[[v|t]|e] w']; simpl; eauto.
Qed.

(** The wrapper adds no effect of its own. *)
Lemma thenablify_world {A R} (f : A → Js (Returned R)) ti a w :
  (thenablify f ti a w).2 = (f a w).2.
Proof.
  unfold thenablify, tryCatch, bind.
  destruct (f a w) as [[[v|t]|e] w']; destruct ti; done.
Qed.
(** C5.  Let [f] be wrapped by [thenablify] and called on [a].  If [f]
    throws [e], then in the default mode every [then] stage chained after
    the call is skipped and the first chained [catch] handler is run on [e]
    in the world [f] left, and in throw-immediately mode [e] is thrown to
    the invoker.  If [f] returns a plain value, the chained [catch] stages
    run no handler and leave the fulfilled thenable as it is. *)
Theorem thenablify_error_routing {A T} (f : A → Js (Returned T)) (a : A)
    (stages : list (T → Js (Returned T)))
    (h : error → Js (Returned T)) (handlers : list (error → Js (Returned T)))
    (w w' : world) :
  (∀ e, f a w = (Throw e, w') →
     (t <- thenablify f false a ;; t' <- thenAll stages t ;; catch_ t' h) w
       = thenablify h false e w'
     ∧ thenablify f true a w = (Throw e, w'))
  ∧ (∀ r ti, f a w = (Ret (Plain r), w') →
     (t <- thenablify f ti a ;; catchAll handlers t) w
       = (Ret (Fulfilled r ti), w')).
Proof.
  split.
  - intros e Hf. unfold thenablify at 1 3, tryCatch, bind. rewrite Hf. simpl.
    rewrite thenAll_rejected. simpl. done.
  - intros r ti Hf. unfold thenablify, tryCatch, bind. rewrite Hf. simpl.
    apply catchAll_fulfilled.
Qed.

Lemma thenablify_error_routing_witness :
  let w := emptyWorld counterHost ∅ in
  ((t <- thenablify (λ _ : unit, throw "boom") false tt ;;
    t' <- thenAll [noisyStage; noisyStage] t ;;
    catch_ t' (λ _, ret (Plain 7%Z))) w
     = (Ret (Fulfilled 7%Z false), w)
   ∧ thenablify (λ _ : unit, @throw (Returned Z) "boom") true tt w
     = (Throw "boom", w))
  ∧ (t <- thenablify (λ _ : unit, ret (Plain 1%Z)) true tt ;;
     catchAll [λ _, ret (Plain 7%Z)] t) w
     = (Ret (Fulfilled 1%Z true), w).
Proof.
  intros w.
  pose proof (thenablify_error_routing (λ _ : unit, throw "boom") tt
                [noisyStage; noisyStage] (λ _, ret (Plain 7%Z)) [] w w)
    as [Hthrow _].
  pose proof (thenablify_error_routing (λ _ : unit, ret (Plain 1%Z)) tt
                [] (λ _, ret (Plain 7%Z)) [λ _, ret (Plain 7%Z)] w w)
    as [_ Hplain].
  split.
  - exact (Hthrow "boom" eq_refl).
  - exact (Hplain 1%Z true eq_refl).
Defined.

(** ** What a computation leaves untouched

    The lemmas of this section show, stage by stage, that a part [F] of the
    world survives a computation. *)

Section Frame.
Context {X : Type} (F : world → X).

Lemma keeps_ret {A} (a : A) : keeps F (ret a).
Proof. done. Qed.

Lemma keeps_throw {A} (e : error) : keeps F (@throw A e).
Proof. done. Qed.

Lemma keeps_gets {A} (f : world → A) : keeps F (gets f).
Proof. done. Qed.

Lemma keeps_call {A} (o : outcome A) : keeps F (call o).
Proof. done. Qed.

Lemma keeps_modify (g : world → world) :
  (∀ w, F (g w) = F w) → keeps F (modify g).
Proof. intros H w. apply H. Qed.

Lemma keeps_bind {A B} (c : Js A) (k : A → Js B) :
  keeps F c → (∀ a, keeps F (k a)) → keeps F (bind c k).
Proof.
  intros Hc Hk w. specialize (Hc w). unfold bind.
  destruct (c w) as [[a|e] w']; simpl in *; [|done].
  rewrite <- Hc. apply Hk.
Qed.

Lemma keeps_tryCatch {A} (c : Js A) (h : error → Js A) :
  keeps F c → (∀ e, keeps F (h e)) → keeps F (tryCatch c h).
Proof.
  intros Hc Hh w. specialize (Hc w). unfold tryCatch.
  destruct (c w) as [[a|e] w']; simpl in *; [done|].
  rewrite <- Hc. apply Hh.
Qed.

Lemma keeps_thenablify {A R} (f : A → Js (Returned R)) ti a :
  keeps F (f a) → keeps F (thenablify f ti a).
Proof.
  intros Hf. unfold thenablify. apply keeps_tryCatch.
  - apply keeps_bind; [done|]. intros [v|t]; apply keeps_ret.
  - intros e. destruct ti; [apply keeps_throw|apply keeps_ret].
Qed.

Lemma keeps_then_ {T U} (t : Thenable T) (f : T → Js (Returned U)) :
  (∀ r, keeps F (f r)) → keeps F (then_ t f).
Proof.
  intros Hf. destruct t; simpl; [by apply keeps_thenablify|done..].
Qed.

Lemma keeps_catch_ {T} (t : Thenable T) (f : error → Js (Returned T)) :
  (∀ e, keeps F (f e)) → keeps F (catch_ t f).
Proof.
  intros Hf. destruct t; simpl; [done|by apply keeps_thenablify|done..].
Qed.

(** [F] does not read the medium, the variable
    [initialStateFromPersistentStorage], nor the trace beyond its writes of
    the hydration flag. *)
Hypothesis F_medium : ∀ data w, F (set_medium data w) = F w.
Hypothesis F_fromStorage :
  ∀ x w, F (set_initialStateFromPersistentStorage x w) = F w.
Hypothesis F_log :
  ∀ e w, flagWrite e = None → F (set_log (log w ++ [e]) w) = F w.

Lemma keeps_trace (e : event) : flagWrite e = None → keeps F (trace e).
Proof. intros He. apply keeps_modify. intros w. by apply F_log. Qed.

Lemma keeps_emit (listeners : list Listener) (a : option EState) :
  keeps F (emit listeners a).
Proof.
  induction listeners as [|f rest IH]; simpl; [apply keeps_ret|].
  apply keeps_bind; [by apply keeps_trace|]. intros _.
  apply keeps_bind; [apply keeps_call|]. intros _. apply IH.
Qed.

Lemma keeps_storageMethod {A}
    (m : EPersistentStorage → gmap string string →
         outcome A * gmap string string) :
  keeps F (storageMethod m).
Proof.
  intros w. unfold storageMethod, bind, gets. simpl.
  destruct (persistentStorage w) as [st|]; [|done].
  destruct (m st (medium w)) as [r data]. simpl. apply F_medium.
Qed.

Lemma keeps_persistentStorageGetItem u :
  keeps F (persistentStorageGetItem u).
Proof.
  unfold persistentStorageGetItem.
  apply keeps_bind; [apply keeps_gets|]. intros o.
  apply keeps_bind; [apply keeps_storageMethod|]. intros r. apply keeps_ret.
Qed.

Lemma keeps_persistentStorageSetItem text :
  keeps F (persistentStorageSetItem text).
Proof.
  unfold persistentStorageSetItem.
  apply keeps_bind; [apply keeps_gets|]. intros o.
  apply keeps_bind; [apply keeps_storageMethod|]. intros r. apply keeps_ret.
Qed.

Lemma keeps_updatePersistentStorage :
  keeps F (updatePersistentStorage getState).
Proof.
  unfold updatePersistentStorage.
  apply keeps_bind; [apply keeps_gets|]. intros o.
  apply keeps_bind; [apply keeps_gets|]. intros s.
  apply keeps_bind; [apply keeps_call|]. intros selected.
  apply keeps_bind.
  - apply keeps_thenablify.
    apply keeps_bind; [apply keeps_call|]. intros r. apply keeps_ret.
  - intros t. apply keeps_then_. apply keeps_persistentStorageSetItem.
Qed.

Lemma keeps_deserializeStage serialized :
  keeps F (deserializeStage serialized).
Proof.
  destruct serialized as [text|]; simpl; [|apply keeps_ret].
  apply keeps_bind; [apply keeps_gets|]. intros o.
  apply keeps_bind; [apply keeps_call|]. intros r. apply keeps_ret.
Qed.

Lemma keeps_versionStage storageValue :
  keeps F (versionStage storageValue).
Proof.
  destruct storageValue as [sv|]; simpl; [|apply keeps_ret].
  destruct (env_version sv) as [v|]; [|apply keeps_ret].
  apply keeps_bind; [apply keeps_gets|]. intros o.
  case_bool_decide; [apply keeps_ret|].
  destruct (migrate o) as [f|].
  - apply keeps_bind; [apply keeps_call|]. intros r. apply keeps_ret.
  - apply keeps_bind; [by apply keeps_trace|]. intros _. apply keeps_ret.
Qed.

Lemma keeps_callPostRehydration cb s e :
  keeps F (callPostRehydration cb s e).
Proof.
  destruct cb as [f|]; simpl; [|apply keeps_ret].
  apply keeps_bind; [by apply keeps_trace|]. intros _. apply keeps_call.
Qed.

Lemma keeps_catchStage cb e : keeps F (catchStage cb e).
Proof.
  unfold catchStage.
  apply keeps_bind; [apply keeps_callPostRehydration|]. intros _.
  apply keeps_ret.
Qed.

Lemma keeps_mergeStage initialState migratedState :
  (∀ x w, F (set_state x w) = F w) →
  keeps F (mergeStage setState getState initialState migratedState).
Proof.
  intros F_state. unfold mergeStage.
  apply keeps_bind; [apply keeps_gets|]. intros o.
  apply keeps_bind; [apply keeps_call|]. intros merged.
  apply keeps_bind; [by apply keeps_modify|]. intros _.
  apply keeps_bind; [by apply keeps_modify|]. intros _.
  apply keeps_bind; [apply keeps_updatePersistentStorage|]. intros t.
  apply keeps_ret.
Qed.

Lemma keeps_readStages initialState :
  (∀ x w, F (set_state x w) = F w) →
  keeps F
    (t0 <- thenablify persistentStorageGetItem false tt ;;
     t1 <- then_ t0 deserializeStage ;;
     t2 <- then_ t1 versionStage ;;
     then_ t2 (mergeStage setState getState initialState)).
Proof.
  intros F_state.
  apply keeps_bind;
    [apply keeps_thenablify, keeps_persistentStorageGetItem|]. intros t0.
  apply keeps_bind; [apply keeps_then_, keeps_deserializeStage|]. intros t1.
  apply keeps_bind; [apply keeps_then_, keeps_versionStage|]. intros t2.
  apply keeps_then_. intros r. by apply keeps_mergeStage.
Qed.

Lemma keeps_finishStage cb u :
  (∀ b w, F (set_hasHydrated b (set_log (log w ++ [HasHydratedSet b]) w))
          = F w) →
  keeps F (finishStage cb u).
Proof.
  intros F_flag. unfold finishStage.
  apply keeps_bind; [apply keeps_gets|]. intros s.
  apply keeps_bind; [apply keeps_callPostRehydration|]. intros _.
  apply keeps_bind; [intros w; apply F_flag|]. intros _.
  apply keeps_bind; [apply keeps_gets|]. intros ls.
  apply keeps_bind; [apply keeps_emit|]. intros _. apply keeps_ret.
Qed.
End Frame.

(** ** The two [update] helpers *)

(** C10, as worded, fails at the key ["k"]: there the assignment under the
    name [k] does replace [t[k]]. *)
Lemma update_context_claim_fails : ¬ update_context_claim.
Proof.
  intros H.
  destruct (H {[ "k" := setState ]} "k" (λ _, alwaysThrows)) as [Hk _].
  unfold ContextStore.update in Hk.
  rewrite lookup_insert_eq, lookup_singleton_eq in Hk.
  injection Hk as Hk.
  apply (f_equal (λ f : Setter,
           (f (Partial ∅, true) (emptyWorld counterHost ∅)).1)) in Hk.
  discriminate Hk.
Qed.

(** C10.  In the context-store variant, for every key [k] other than the
    name ["k"], [update(t, k, replacer)] leaves [t[k]] as it was and puts
    [replacer(t[k])] under the name ["k"]; so the [setState] of the store
    handle the initializer receives is the parent's own, and a write through
    it runs no storage write, whatever that write is.  In the mutator-chain
    variant [update] replaces [t[k]], and the handle's [setState] runs the
    parent's and then [updatePersistentStorage]. *)
Theorem update_context_store (t : StoreHandle) (k : string)
    (replacer : option Setter → Setter)
    (write : Js unit) (parentGet : Js (option EState))
    (a : SetArgs) :
  (k ≠ "k" →
     ContextStore.update t k replacer !! k = t !! k
     ∧ ContextStore.update t k replacer !! "k" = Some (replacer (t !! k)))
  ∧ callSetter
      (ContextStore.initializerStore write t !! "setState") a
    = callSetter (t !! "setState") a
  ∧ update t k replacer !! k = Some (replacer (t !! k))
  ∧ callSetter (initializerStore parentGet t !! "setState") a
    = (callSetter (t !! "setState") a ;;
       updatePersistentStorage parentGet ;; ret tt).
Proof.
  split; [|split; [|split]].
  - intros Hk. unfold ContextStore.update. split.
    + by rewrite lookup_insert_ne.
    + by rewrite lookup_insert_eq.
  - unfold ContextStore.initializerStore, ContextStore.update.
    by rewrite lookup_insert_ne.
  - unfold update. by rewrite lookup_insert_eq.
  - unfold initializerStore, update. by rewrite lookup_insert_eq.
Qed.

Lemma update_context_store_witness :
  let t : StoreHandle := {[ "setState" := setState ]} in
  ContextStore.update t "setState" (λ _, alwaysThrows) !! "setState"
  = Some setState
  ∧ ContextStore.update t "setState" (λ _, alwaysThrows) !! "k"
    = Some alwaysThrows.
Proof.
  intros t.
  destruct (update_context_store t "setState" (λ _, alwaysThrows)
              (ret tt) getState (Partial ∅, true)) as [H _].
  destruct (H ltac:(discriminate)) as [H1 H2].
  split; [exact H1|exact H2].
Defined.

(** ** The write side *)



(** ** No storage *)

(** C3.  When the storage provider throws at construction, returns no
    handle, or is missing, [persistImpl] runs the initializer with a [set]
    and a store handle whose [setState] warn and then call the parent's:
    over the Store Engine every such call returns normally, updates the
    in-memory state, and puts one warning on the console. *)
Theorem no_storage_mode (h : Host) (storeInitializer : StoreInitializer)
    (_options : EPersistOptions) (api : StoreHandle) (w : world)
    (Hapi : api !! "setState" = Some setState)
    (Hfail : providerFails
               (getStorage (spreadDefaults (defaultOptions h) _options))
               (providerCalls w)) :
  let store := update api "setState" unpersistedReplacer in
  (∃ w0,
     persistImpl h storeInitializer _options setState getState api w
     = (s <- storeInitializer (unpersistedSet setState) getState store ;;
        ret (s, store, None)) w0
     ∧ persistentStorage w0 = None)
  ∧ ∀ (a : SetArgs) (w' : world),
      callSetter (store !! "setState") a = unpersistedSet setState a
      ∧ unpersistedSet setState a w'
        = (Ret tt,
           set_state (Some (nextState a (state w')))
             (set_log
                (log w' ++
                 [ConsoleWarn (messages.noPersistentStorage (name (options w')))])
                w')).
Proof.
  intros store. split.
  - unfold persistImpl.
    set (o := spreadDefaults (defaultOptions h) _options) in *. clearbody o.
    unfold bind, modify, gets, tryElse, tryCatch; simpl.
    destruct (getStorage o) as [g|] eqn:Hg; simpl in Hfail |- *.
    + unfold callProvider, bind, gets, modify, call; simpl.
      destruct Hfail as [[e He]|He]; rewrite He; simpl;
        eexists; (split; [reflexivity|reflexivity]).
    + eexists; (split; [reflexivity|reflexivity]).
  - intros a w'. split.
    + unfold store, update. rewrite lookup_insert_eq, Hapi. done.
    + done.
Qed.

Lemma no_storage_mode_witness :
  let h := {| localStorage := λ _, Throw "SecurityError";
              JSON_stringify := counterStringify;
              JSON_parse := counterParse |} in
  let w := counterStore h noMembers ∅ in
  let r := unpersistedSet setState (Partial (counter 1), false) w in
  persistentStorage w = None
  ∧ r.1 = Ret tt ∧ state r.2 = Some (counter 1)
  ∧ log r.2 = [ConsoleWarn (messages.noPersistentStorage "app")].
Proof.
  intros h w r.
  assert (Hapi : ({[ "setState" := setState ]} : StoreHandle) !! "setState"
                 = Some setState) by apply lookup_singleton_eq.
  assert (Hfail : providerFails
                    (getStorage
                       (spreadDefaults (defaultOptions h)
                          {| e_name := "app"; e_members := noMembers |}))
                    (providerCalls (emptyWorld h ∅)))
    by (left; eexists; reflexivity).
  destruct (no_storage_mode h (λ _ _ _, ret (counter 0))
              {| e_name := "app"; e_members := noMembers |}
              {[ "setState" := setState ]} (emptyWorld h ∅) Hapi Hfail)
    as [_ H].
  destruct (H (Partial (counter 1), false) w) as [_ H2].
  unfold r. rewrite H2. vm_compute. repeat split.
Defined.

(** ** [setOptions] *)

(** The options after [setOptions] are the shallow merge. *)
Lemma setOptions_merges (newOptions : PartialEPersistOptions) (w : world) :
  options (setOptions newOptions w).2 = spreadOptions (options w) newOptions.
Proof.
  unfold setOptions, callProvider, bind, modify, gets, call.
  generalize (spreadOptions (options w) newOptions). intros o. simpl.
  destruct (getStorage o) as [g|]; [|reflexivity].
  simpl. by destruct (g (providerCalls w)).
Qed.

(** Whenever the merged options have a provider, [setOptions] calls it. *)
Lemma setOptions_calls_provider (newOptions : PartialEPersistOptions)
    (w : world) (g : Provider) :
  getStorage (spreadOptions (options w) newOptions) = Some g →
  providerCalls (setOptions newOptions w).2 = S (providerCalls w).
Proof.
  unfold setOptions, callProvider, bind, modify, gets, call.
  generalize (spreadOptions (options w) newOptions). intros o. simpl.
  intros ->.
  simpl. by destruct (g (providerCalls w)).
Qed.



(** On that store the handle goes from the storage to [undefined]. *)
Lemma setOptions_calls_provider_again :
  let w1 := counterStore flakyHost noMembers ∅ in
  let r := setOptions (onlyVersion 1) w1 in
  providerCalls w1 = 1
  ∧ persistentStorage w1 = Some memoryStorage
  ∧ r.1 = Ret tt
  ∧ version (options r.2) = 1%Z
  ∧ providerCalls r.2 = 2
  ∧ persistentStorage r.2 = None.
Proof. vm_compute. repeat split. Qed.

(** ** The hydration flag *)

Lemma flags_trace e w :
  flagWrite e = None → flags (set_log (log w ++ [e]) w) = flags w.
Proof.
  intros He. unfold flags. simpl. rewrite flagWrites_snoc, He. simpl.
  by rewrite app_nil_r.
Qed.

Lemma setHasHydrated_flags b w :
  setHasHydrated b w
  = (Ret tt, set_hasHydrated b (set_log (log w ++ [HasHydratedSet b]) w)).
Proof. done. Qed.

Lemma hydratePrelude_flags w :
  flags (hydratePrelude getState w).2 = (flagWrites (log w) ++ [false], false).
Proof.
  unfold hydratePrelude.
  unfold bind at 1. rewrite setHasHydrated_flags.
  assert (Hk : keeps flags (announceHydration getState)).
  { unfold announceHydration.
    apply keeps_bind; [apply keeps_gets|]. intros s.
    apply keeps_bind; [apply keeps_gets|]. intros ls.
    apply keeps_bind; [apply (keeps_emit flags flags_trace)|]. intros _.
    apply keeps_bind; [apply keeps_gets|]. intros o.
    destruct (onRehydrateStorage o) as [f|]; [|apply keeps_ret].
    apply keeps_bind; [apply keeps_gets|]. intros s'.
    apply keeps_bind; [by apply (keeps_trace flags flags_trace)|]. intros _.
    apply keeps_call. }
  rewrite Hk. unfold flags. simpl. by rewrite flagWrites_snoc.
Qed.

(** The chain of [hydrate], cut after the merge stage. *)
Lemma hydrateChain_cut initialState cb w :
  hydrateChain setState getState initialState cb w
  = match (t0 <- thenablify persistentStorageGetItem false tt ;;
           t1 <- then_ t0 deserializeStage ;;
           t2 <- then_ t1 versionStage ;;
           then_ t2 (mergeStage setState getState initialState)) w with
    | (Ret t3, w3) =>
        (t4 <- then_ t3 (finishStage cb) ;; catch_ t4 (catchStage cb)) w3
    | (Throw e, w3) => (Throw e, w3)
    end.
Proof.
  unfold hydrateChain, bind.
  destruct (thenablify persistentStorageGetItem false tt w) as [[t0|e] w0];
    [|done].
  destruct (then_ t0 deserializeStage w0) as [[t1|e] w1]; [|done].
  destruct (then_ t1 versionStage w1) as [[t2|e] w2]; [|done].
  by destruct (then_ t2 (mergeStage setState getState initialState) w2)
    as [[t3|e] w3].
Qed.

(** The stage after the merge writes the flag when its callback returns,
    and only then. *)
Lemma finishStage_sets_flag cb u w :
  flags (finishStage cb u w).2
  = if callbackPasses cb (initialStateFromPersistentStorage w)
    then (flagWrites (log w) ++ [true], true)
    else flags w.
Proof.
  unfold finishStage.
  rewrite (bind_Ret (gets initialStateFromPersistentStorage) _ w _ w eq_refl).
  pose proof (keeps_callPostRehydration flags flags_trace cb
                (initialStateFromPersistentStorage w) None w) as Hcb.
  assert (Hpass :
    callbackPasses cb (initialStateFromPersistentStorage w)
    = match (callPostRehydration cb (initialStateFromPersistentStorage w)
               None w).1 with
      | Ret _ => true
      | Throw _ => false
      end).
  { unfold callbackPasses, callPostRehydration, bind, trace, modify, call.
    destruct cb as [f|]; [|done]. simpl.
    by destruct (f (initialStateFromPersistentStorage w) None). }
  rewrite Hpass. clear Hpass.
  destruct (callPostRehydration cb (initialStateFromPersistentStorage w) None w)
    as [[[]|e] wa] eqn:Ecb; simpl in *.
  - rewrite (bind_Ret _ _ _ _ _ Ecb).
    rewrite (bind_Ret _ _ _ _ _ (setHasHydrated_flags true wa)).
    set (wb := set_hasHydrated true _).
    assert (Hk : keeps flags
              (listeners <- gets finishHydrationListeners ;;
               emit listeners (initialStateFromPersistentStorage w) ;;
               ret (Plain tt))).
    { apply keeps_bind; [apply keeps_gets|]. intros ls.
      apply keeps_bind; [apply (keeps_emit flags flags_trace)|]. intros _.
      apply keeps_ret. }
    rewrite Hk. unfold wb, flags. simpl. rewrite flagWrites_snoc. simpl.
    unfold flags in Hcb. by injection Hcb as -> _.
  - by rewrite (bind_Throw _ _ _ _ _ Ecb).
Qed.

(** The last two stages write the flag when they start from a fulfilled
    thenable and the callback returns, and only then. *)
Lemma completion_sets_flag cb (t3 : Thenable unit) w :
  flags ((t4 <- then_ t3 (finishStage cb) ;;
          catch_ t4 (catchStage cb)) w).2
  = match t3 with
    | Fulfilled _ _ =>
        if callbackPasses cb (initialStateFromPersistentStorage w)
        then (flagWrites (log w) ++ [true], true)
        else flags w
    | _ => flags w
    end.
Proof.
  unfold bind. destruct t3 as [u ti|e ti|p|s]; simpl; [| |done..].
  - pose proof (thenablify_world (finishStage cb) ti u w) as Hw.
    rewrite <- (finishStage_sets_flag cb u w), <- Hw.
    destruct (thenablify (finishStage cb) ti u w) as [[t4|e] w4];
      simpl; [|done].
    apply (keeps_catch_ flags t4 (catchStage cb)
             (keeps_catchStage flags flags_trace cb) w4).
  - apply (keeps_thenablify flags (catchStage cb) ti e
             (keeps_catchStage flags flags_trace cb e)).
Qed.

(** C7.  Every [rehydrate()] call starts by setting the flag to false,
    whatever it was: the rest of the call runs from the world with the flag
    reset.  After that the flag is set to true at most once, in the stage
    after the merge once the post-rehydration callback has returned: when
    the announcement returns, the chain up to the merge stage returns a
    fulfilled thenable and the callback returns, the flag has been written
    [false] then [true] and is true when the call ends.  In every other
    case (the announcement throws, a stage before the stage after the merge
    fails, throws or is handed to a promise, or the callback throws) it has
    been written [false] only and is false. *)
Theorem hydrate_flag_writes (initialState : EState) (w : world) :
  let w' := (rehydrate initialState w).2 in
  rehydrate initialState w
  = (postRehydrationCallback <- announceHydration getState ;;
     hydrateChain setState getState initialState postRehydrationCallback)
      (set_hasHydrated false (set_log (log w ++ [HasHydratedSet false]) w))
  ∧ flagWrites (log w')
    = flagWrites (log w)
      ++ (if setsFlag initialState w then [false; true] else [false])
  ∧ hasHydrated w' = setsFlag initialState w.
Proof.
  split; [reflexivity|].
  assert (H : flags (rehydrate initialState w).2
              = (flagWrites (log w)
                 ++ (if setsFlag initialState w then [false; true]
                     else [false]),
                 setsFlag initialState w)).
  { unfold rehydrate, hydrate, setsFlag, bind.
    pose proof (hydratePrelude_flags w) as Hpre.
    destruct (hydratePrelude getState w) as [[cb|e] w0]; simpl in Hpre;
      [|done].
    rewrite hydrateChain_cut. fold (throughMergeStage initialState).
    pose proof (keeps_readStages flags (λ _ _, eq_refl) (λ _ _, eq_refl)
                  flags_trace initialState (λ _ _, eq_refl) w0) as Hread.
    fold (throughMergeStage initialState) in Hread.
    destruct (throughMergeStage initialState w0) as [[t3|e] w3];
      simpl in Hread; rewrite Hpre in Hread; [|done].
    rewrite completion_sets_flag.
    destruct t3 as [u ti|e ti|p|s]; [|done..].
    destruct (callbackPasses cb (initialStateFromPersistentStorage w3));
      [|done].
    unfold flags in Hread. injection Hread as Hlog _.
    by rewrite Hlog, <- app_assoc. }
  unfold flags in H. by injection H.
Qed.

(** C7, as worded, fails on a pass that meets an error: over a storage whose
    entry does not parse, the flag is still false when [rehydrate()]
    returns. *)
Lemma hydrated_once_claim_fails : ¬ hydrated_once_claim.
Proof.
  intros H.
  destruct (H (counter 0)
              (counterStore counterHost noMembers {[ "app" := "corrupt" ]}))
    as [_ Hflag].
  vm_compute in Hflag. discriminate Hflag.
Qed.

(** ** The last two stages *)

(** A rejected chain skips the stage after the merge and runs the handler of
    the final [catch], which calls the callback with the error. *)
Lemma rejected_chain_routed cb e ti w :
  (t4 <- then_ (Rejected e ti) (finishStage cb) ;;
   catch_ t4 (catchStage cb)) w
  = thenablify (catchStage cb) ti e w.
Proof. done. Qed.

(** When the read stages yield a fulfilled thenable, the stage after the
    merge runs in the mode of that thenable. *)
Lemma fulfilled_chain_mode cb ti w :
  then_ (Fulfilled tt ti) (finishStage cb) w
  = thenablify (finishStage cb) ti tt w.
Proof. done. Qed.

(** The stage after the merge runs on the thenable of the storage write,
    which is in throw-immediately mode: what that stage throws is thrown to
    the caller, past the final [catch]. *)
Lemma completion_failure_thrown cb e w w' :
  finishStage cb tt w = (Throw e, w') →
  (t4 <- then_ (Fulfilled tt true) (finishStage cb) ;;
   catch_ t4 (catchStage cb)) w
  = (Throw e, w').
Proof.
  intros H. unfold then_, thenablify, tryCatch, bind. by rewrite H.
Qed.

(** On a thenable in the default mode the same failure reaches the handler
    of the final [catch]. *)
Lemma completion_failure_caught cb e w w' :
  finishStage cb tt w = (Throw e, w') →
  (t4 <- then_ (Fulfilled tt false) (finishStage cb) ;;
   catch_ t4 (catchStage cb)) w
  = thenablify (catchStage cb) false e w'.
Proof.
  intros H. unfold then_, catch_, thenablify, tryCatch, bind. by rewrite H.
Qed.

(** ** Synchronous hydration *)

Lemma keeps_config_hydratePrelude : keeps config (hydratePrelude getState).
Proof.
  unfold hydratePrelude, announceHydration.
  apply keeps_bind; [done|]. intros _.
  apply keeps_bind; [apply keeps_gets|]. intros s.
  apply keeps_bind; [apply keeps_gets|]. intros ls.
  apply keeps_bind; [by apply keeps_emit|]. intros _.
  apply keeps_bind; [apply keeps_gets|]. intros o.
  destruct (onRehydrateStorage o) as [f|]; [|apply keeps_ret].
  apply keeps_bind; [apply keeps_gets|]. intros s'.
  apply keeps_bind; [by apply keeps_trace|]. intros _.
  apply keeps_call.
Qed.

Lemma thenablify_defaultMode {A R} (f : A → Js (Returned R)) a w :
  plainOrThrow (f a w).1 →
  ∃ t, (thenablify f false a w).1 = Ret t ∧ defaultMode t.
Proof.
  unfold thenablify, tryCatch, bind.
  destruct (f a w) as [[[v|t]|e] w']; simpl; [|done|];
    (eexists; split; [reflexivity|reflexivity]).
Qed.

Lemma then_defaultMode {T U} (t : Thenable T) (f : T → Js (Returned U)) w :
  defaultMode t → (∀ r, plainOrThrow (f r w).1) →
  ∃ t', (then_ t f w).1 = Ret t' ∧ defaultMode t'.
Proof.
  intros Ht Hf. destruct t as [r ti|e ti|p|s]; simpl in *; [| |done..].
  - subst ti. apply thenablify_defaultMode, Hf.
  - eexists; split; [reflexivity|done].
Qed.

Lemma getItem_plain u w :
  syncStorage (persistentStorage w) →
  plainOrThrow (persistentStorageGetItem u w).1.
Proof.
  intros Hs. unfold persistentStorageGetItem, storageMethod, bind, gets. simpl.
  destruct (persistentStorage w) as [st|]; [|done].
  destruct (Hs st eq_refl (name (options w)) (medium w)) as [Hget _].
  destruct (getItem st (name (options w)) (medium w)) as [[r|p]|e];
    simpl; [done| |done].
  by destruct (Hget p).
Qed.

Lemma deserializeStage_plain serialized w :
  syncDeserializer (options w) →
  plainOrThrow (deserializeStage serialized w).1.
Proof.
  intros Hd. destruct serialized as [text|]; [|done].
  unfold deserializeStage, bind, gets, call. simpl.
  specialize (Hd text).
  destruct (deserialize (options w) text) as [[r|p]|e]; simpl; [done| |done].
  by destruct (Hd p).
Qed.

Lemma returnedState_plainOrRecord (s : EState) :
  plainOrRecord (Ret (returnedState s)).
Proof. unfold returnedState. by destruct (thenMember s). Qed.

(** The version stage returns no promise when [migrate] returns none. *)
Lemma versionStage_sync storageValue w :
  syncMigrate (options w) →
  plainOrRecord (versionStage storageValue w).1.
Proof.
  intros Hm. destruct storageValue as [sv|]; [|done].
  unfold versionStage.
  destruct (env_version sv) as [v|]; [|apply returnedState_plainOrRecord].
  unfold bind, gets. simpl.
  case_bool_decide; [apply returnedState_plainOrRecord|].
  destruct (migrate (options w)) as [f|] eqn:Ef; [|done].
  unfold call. specialize (Hm f Ef (env_state sv) v).
  destruct (f (env_state sv) v) as [[r|p]|e]; simpl;
    [apply returnedState_plainOrRecord|by destruct (Hm p)|done].
Qed.

Lemma then_versionStage t1 w :
  syncMigrate (options w) → defaultMode t1 →
  ∃ t2, (then_ t1 versionStage w).1 = Ret t2 ∧ defaultOrRecord t2.
Proof.
  intros Hm Ht.
  destruct t1 as [storageValue ti|e ti|p|s]; simpl in *; [| |done..];
    subst ti; [|by eexists].
  pose proof (versionStage_sync storageValue w Hm) as Hv.
  unfold thenablify, tryCatch, bind.
  destruct (versionStage storageValue w) as [[[x|[r ti|e ti|p|s]]|e] w'];
    simpl in *; try done; by eexists.
Qed.

(** A synchronous write ends in the thenable of the write, or throws. *)
Lemma updatePersistentStorage_sync w :
  syncSerializer (options w) → syncStorage (persistentStorage w) →
  match (updatePersistentStorage getState w).1 with
  | Ret t => t = Fulfilled tt true
  | Throw _ => True
  end.
Proof.
  intros Hser Hst. unfold updatePersistentStorage.
  rewrite (bind_Ret (gets options) _ w _ w eq_refl).
  rewrite (bind_Ret getState _ w _ w eq_refl).
  unfold bind at 1, call at 1.
  destruct (partialize (options w) _) as [selected|e]; [|done].
  set (envelope := {| env_state := selected |}).
  unfold bind at 1, thenablify at 1, tryCatch, bind at 1, call.
  specialize (Hser envelope).
  destruct (serialize (options w) envelope) as [[text|p]|e]; simpl;
    [|by destruct (Hser p)|done].
  unfold thenablify, tryCatch, persistentStorageSetItem, storageMethod, bind,
    gets. simpl.
  destruct (persistentStorage w) as [st|]; [|done].
  destruct (Hst st eq_refl (name (options w)) (medium w)) as [_ Hset].
  specialize (Hset text).
  destruct (setItem st (name (options w)) text (medium w))
    as [[[[]|p]|e] data]; simpl in *; [done| |done].
  by destruct (Hset p).
Qed.

Lemma mergeStage_sync initialState migratedState w :
  synchronous w →
  match (mergeStage setState getState initialState migratedState w).1 with
  | Ret r => r = Thenish (Fulfilled tt true)
  | Throw _ => True
  end.
Proof.
  intros (Hst & Hser & _). unfold mergeStage.
  rewrite (bind_Ret (gets options) _ w _ w eq_refl).
  unfold bind at 1, call at 1.
  destruct (merge (options w) migratedState initialState) as [merged|e];
    [|done].
  unfold bind at 1, modify at 1. unfold bind at 1, setState at 1, modify at 1.
  set (w' := set_state _ _).
  pose proof (updatePersistentStorage_sync w' Hser Hst) as Hup.
  unfold bind.
  destruct (updatePersistentStorage getState w') as [[t|e] w'']; [|done].
  simpl in *. by subst t.
Qed.

Lemma then_mergeStage initialState t2 w :
  synchronous w → defaultMode t2 →
  ∃ t3, (then_ t2 (mergeStage setState getState initialState) w).1 = Ret t3
        ∧ writeMode t3.
Proof.
  intros Hsync Ht. destruct t2 as [r ti|e ti|p|s]; simpl in *; [| |done..].
  - subst ti. pose proof (mergeStage_sync initialState r w Hsync) as Hm.
    unfold thenablify, tryCatch, bind.
    destruct (mergeStage setState getState initialState r w) as [[x|e] w'];
      simpl in *.
    + subst x. eexists; split; [reflexivity|reflexivity].
    + eexists; split; [reflexivity|reflexivity].
  - eexists; split; [reflexivity|done].
Qed.

Lemma chain_step {A B} (c : Js A) (k : A → Js B) (S : A → Prop)
    (Q : outcome B → world → Prop) w :
  keeps standing c →
  (∃ a, (c w).1 = Ret a ∧ S a) →
  (∀ a w', standing w' = standing w → S a → Q (k a w').1 (k a w').2) →
  Q (bind c k w).1 (bind c k w).2.
Proof.
  intros Hkeep (a & Ha & HS) Hk. specialize (Hkeep w). unfold bind.
  destruct (c w) as [[a'|e] w']; simpl in *; [|done].
  injection Ha as ->. by apply Hk.
Qed.

Lemma standing_sync w w' :
  standing w' = standing w → synchronous w → synchronous w'.
Proof.
  intros H. apply (f_equal fst) in H. change (config w' = config w) in H.
  unfold synchronous. by rewrite H.
Qed.

Lemma standing_flag w w' :
  standing w' = standing w → hasHydrated w' = hasHydrated w.
Proof. intros H. by apply (f_equal snd) in H. Qed.

(** When the stage after the merge returns, it has set the flag. *)
Lemma finishStage_returns cb u w r w' :
  finishStage cb u w = (Ret r, w') → r = Plain tt ∧ hasHydrated w' = true.
Proof.
  unfold finishStage.
  rewrite (bind_Ret (gets initialStateFromPersistentStorage) _ w _ w eq_refl).
  unfold bind at 1.
  destruct (callPostRehydration cb (initialStateFromPersistentStorage w) None w)
    as [[[]|e] wa]; [|done].
  rewrite (bind_Ret _ _ _ _ _ (setHasHydrated_flags true wa)).
  set (wb := set_hasHydrated true _).
  rewrite (bind_Ret (gets finishHydrationListeners) _ wb _ wb eq_refl).
  pose proof (keeps_emit hasHydrated (λ _ _ _, eq_refl)
                (finishHydrationListeners wb)
                (initialStateFromPersistentStorage w) wb) as Hemit.
  unfold bind.
  destruct (emit (finishHydrationListeners wb)
              (initialStateFromPersistentStorage w) wb) as [[[]|e] wc];
    [|done].
  simpl in Hemit. by intros [= <- <-].
Qed.

Lemma completion_end cb t3 w :
  writeMode t3 → hasHydrated w = false →
  let r := (t4 <- then_ t3 (finishStage cb) ;; catch_ t4 (catchStage cb)) w in
  hydrationEnd r.1 (hasHydrated r.2).
Proof.
  intros Ht Hflag. destruct t3 as [[] ti|e ti|p|s]; simpl in Ht; [| |done..];
    subst ti; cbv zeta.
  - unfold then_, thenablify, tryCatch, bind.
    destruct (finishStage cb tt w) as [[r|e] w'] eqn:Hfin; simpl.
    + destruct (finishStage_returns _ _ _ _ _ Hfin) as [-> Htrue]. simpl.
      rewrite Htrue. constructor.
    + constructor.
  - rewrite rejected_chain_routed.
    pose proof (keeps_thenablify hasHydrated (catchStage cb) false e
                  (keeps_catchStage hasHydrated (λ _ _ _, eq_refl) cb e) w)
      as Hkeep.
    rewrite Hflag in Hkeep. rewrite Hkeep. clear Hkeep.
    unfold thenablify, tryCatch, catchStage, bind.
    destruct (callPostRehydration cb None (Some e) w) as [[[]|e'] w'];
      simpl; constructor.
Qed.

Lemma hydrateChain_end initialState cb w :
  synchronous w → hasHydrated w = false →
  let r := hydrateChain setState getState initialState cb w in
  hydrationEnd r.1 (hasHydrated r.2).
Proof.
  intros Hsync Hflag. cbv zeta. unfold hydrateChain.
  apply (chain_step _ _ defaultMode).
  { apply keeps_thenablify, keeps_persistentStorageGetItem. done. }
  { apply thenablify_defaultMode, getItem_plain, Hsync. }
  intros t0 w0 E0 H0.
  pose proof (standing_sync _ _ E0 Hsync) as Hsync0.
  apply (chain_step _ _ defaultMode).
  { apply keeps_then_. intros r. by apply keeps_deserializeStage. }
  { apply then_defaultMode; [done|]. intros r.
    apply deserializeStage_plain, Hsync0. }
  intros t1 w1 E1 H1.
  pose proof (standing_sync _ _ E1 Hsync0) as Hsync1.
  apply (chain_step _ _ defaultOrRecord).
  { apply keeps_then_. intros r. by apply keeps_versionStage. }
  { apply then_versionStage; [apply Hsync1|done]. }
  intros t2 w2 E2 H2.
  pose proof (standing_sync _ _ E2 Hsync1) as Hsync2.
  assert (H2' : defaultMode t2 ∨ ∃ s, t2 = RecordWithThen s).
  { destruct t2 as [r ti|e ti|p|s]; simpl in H2; [by left..|done|].
    right. by exists s. }
  destruct H2' as [H2'|[s ->]]; [|constructor].
  apply (chain_step _ _ writeMode).
  { apply keeps_then_. intros r. by apply keeps_mergeStage. }
  { by apply then_mergeStage. }
  intros t3 w3 E3 H3.
  apply completion_end; [done|].
  by rewrite (standing_flag _ _ E3), (standing_flag _ _ E2),
    (standing_flag _ _ E1), (standing_flag _ _ E0).
Qed.

(** With synchronous collaborators a [rehydrate()] call has run to its end
    when it returns. *)
Lemma hydrate_runs_to_its_end (initialState : EState) (w : world) :
  synchronous w →
  let r := rehydrate initialState w in
  hydrationEnd r.1 (hasHydrated r.2).
Proof.
  intros Hsync. cbv zeta. unfold rehydrate, hydrate, bind.
  pose proof (keeps_config_hydratePrelude w) as Hconfig.
  pose proof (hydratePrelude_flags w) as Hflags.
  destruct (hydratePrelude getState w) as [[cb|e] w1]; simpl in *;
    [|constructor].
  apply hydrateChain_end.
  - unfold synchronous. by rewrite Hconfig.
  - unfold flags in Hflags. by injection Hflags.
Qed.

Lemma hydrationEnd_settled r b : hydrationEnd r b → settledOutcome r.
Proof. by intros []. Qed.

Lemma liftNow_sync {A B} (f : A → outcome B) a p : liftNow f a ≠ Ret (Later p).
Proof. unfold liftNow. by destruct (f a). Qed.

Lemma memoryStorage_sync : syncStorage (Some memoryStorage).
Proof. intros st [= <-] k data. split; intros; discriminate. Qed.

(** C6.  A thenable built from a value [x] that is not promise-like is
    [Fulfilled]; its [then] calls [f] on that value at once, and wraps a
    plain result of [f] into a fulfilled thenable.  With a synchronous storage
    backend, serializer, deserializer and migrate function, a [rehydrate()]
    call has run to its end when it returns: it returns no pending thenable,
    and either every stage has run and the flag is true, or an error was
    routed to the final [catch] and the flag is false, or the call threw. *)
Theorem then_is_synchronous {T U} (x : Returned T) (ti : bool)
    (f : T → Js (Returned U)) (initialState : EState) (w : world) :
  (hasThen x = false →
     ∃ v, x = Plain v
          ∧ thenablify (λ _ : unit, ret x) ti tt w = (Ret (Fulfilled v ti), w)
          ∧ then_ (Fulfilled v ti) f w = thenablify f ti v w
          ∧ ∀ u w', f v w = (Ret (Plain u), w') →
                    then_ (Fulfilled v ti) f w = (Ret (Fulfilled u ti), w'))
  ∧ (synchronous w →
     let r := rehydrate initialState w in
     settledOutcome r.1 ∧ hydrationEnd r.1 (hasHydrated r.2)).
Proof.
  split.
  - destruct x as [v|t]; [|discriminate]. intros _. exists v.
    repeat split. intros u w' Hf. simpl.
    unfold thenablify, tryCatch, bind. by rewrite Hf.
  - intros Hsync r.
    pose proof (hydrate_runs_to_its_end initialState w Hsync) as Hend.
    split; [|exact Hend]. by apply hydrationEnd_settled in Hend.
Qed.

Lemma counterStore_synchronous :
  synchronous (counterStore counterHost noMembers ∅).
Proof.
  unfold synchronous.
  change (config (counterStore counterHost noMembers ∅))
    with (spreadDefaults (defaultOptions counterHost)
            {| e_name := "app"; e_members := noMembers |},
          Some memoryStorage).
  split; [apply memoryStorage_sync|].
  split; [intros v p; apply liftNow_sync|].
  split; [intros v p; apply liftNow_sync|].
  intros f [=].
Qed.

Lemma then_is_synchronous_witness :
  let w := counterStore counterHost noMembers ∅ in
  then_ (Fulfilled 1%Z true) noisyStage w
  = (Ret (Fulfilled 1%Z true), set_log (log w ++ [ConsoleWarn "stage"]) w)
  ∧ hydrationEnd (rehydrate (counter 0) w).1
      (hasHydrated (rehydrate (counter 0) w).2).
Proof.
  intros w.
  destruct (then_is_synchronous (Plain 1%Z) true noisyStage (counter 0) w)
    as [Hthen Hsync].
  destruct (Hthen eq_refl) as (v & [= <-] & _ & _ & Hplain).
  split.
  - apply Hplain. reflexivity.
  - apply (Hsync counterStore_synchronous).
Defined.

(** C6, as worded, fails when [migrate] returns a promise: storage,
    serializer and deserializer are synchronous, the stored version differs,
    and [rehydrate()] returns a pending thenable. *)
Lemma synchronous_pipeline_claim_fails : ¬ synchronous_pipeline_claim.
Proof.
  intros H.
  specialize (H (counter 0)
                (counterStore counterHost asyncMigrate {[ "app" := "05" ]})).
  assert (Hst : syncStorage
                  (persistentStorage
                     (counterStore counterHost asyncMigrate
                        {[ "app" := "05" ]}))).
  { change (persistentStorage _) with (Some memoryStorage).
    apply memoryStorage_sync. }
  assert (Hser : syncSerializer
                   (options
                      (counterStore counterHost asyncMigrate
                         {[ "app" := "05" ]}))).
  { intros v p. change (serialize _) with (liftNow counterStringify).
    apply liftNow_sync. }
  assert (Hde : syncDeserializer
                  (options
                     (counterStore counterHost asyncMigrate
                        {[ "app" := "05" ]}))).
  { intros v p. change (deserialize _) with (liftNow counterParse).
    apply liftNow_sync. }
  specialize (H Hst Hser Hde). vm_compute in H. discriminate H.
Qed.

(** ** Version resolution *)

Lemma keeps_bind_tail {X A B} (F : world → X) (c : Js A) (k : A → Js B) w :
  (∀ a, keeps F (k a)) → F (bind c k w).2 = F (c w).2.
Proof.
  intros Hk. unfold bind. destruct (c w) as [[a|e] w']; [apply Hk|done].
Qed.

(** A state as a stage returns it, with and without a [then] member. *)
Lemma returnedState_plain (s : EState) :
  s !! "then" = None → returnedState s = Plain (PState s).
Proof. unfold returnedState, thenMember. by intros ->. Qed.

Lemma returnedState_record (s : EState) :
  is_Some (s !! "then") → returnedState s = Thenish (RecordWithThen s).
Proof. unfold returnedState, thenMember. by intros [x ->]. Qed.

Lemma thenablify_returnedState_plain (s : EState) w :
  s !! "then" = None →
  thenablify (λ s, ret (returnedState s)) false s w
  = (Ret (Fulfilled (PState s) false), w).
Proof.
  intros H. unfold thenablify, tryCatch, bind, ret.
  by rewrite (returnedState_plain s H).
Qed.

Lemma thenablify_returnedState_record (s : EState) w :
  is_Some (s !! "then") →
  thenablify (λ s, ret (returnedState s)) false s w
  = (Ret (RecordWithThen s), w).
Proof.
  intros H. unfold thenablify, tryCatch, bind, ret.
  by rewrite (returnedState_record s H).
Qed.

Section VersionResolution.
Variables (initialState : EState) (cb : option PostRehydrationCallback).
Variables (w : world) (st : EPersistentStorage) (text : string).
Variable sv : EPersistentStorageValue.
Hypothesis Hst : persistentStorage w = Some st.
Hypothesis Hget :
  getItem st (name (options w)) (medium w) = Ret (Now (Some text)).
Hypothesis Hde : deserialize (options w) text = Ret (Now sv).

Lemma hydrateChain_read :
  hydrateChain setState getState initialState cb w
  = (t2 <- then_ (Fulfilled (Some sv) false) versionStage ;;
     t3 <- then_ t2 (mergeStage setState getState initialState) ;;
     t4 <- then_ t3 (finishStage cb) ;;
     catch_ t4 (catchStage cb)) w.
Proof.
  unfold hydrateChain.
  assert (H0 : thenablify persistentStorageGetItem false tt w
               = (Ret (Fulfilled (Some text) false), w)).
  { unfold thenablify, tryCatch, persistentStorageGetItem, storageMethod,
      bind, gets. simpl. rewrite Hst, Hget. simpl. by destruct w. }
  rewrite (bind_Ret _ _ _ _ _ H0).
  assert (H1 : then_ (Fulfilled (Some text) false) deserializeStage w
               = (Ret (Fulfilled (Some sv) false), w)).
  { unfold then_, thenablify, tryCatch, deserializeStage, bind, gets, call.
    simpl. by rewrite Hde. }
  by rewrite (bind_Ret _ _ _ _ _ H1).
Qed.

Lemma state_fromMergeStage migratedState w1 merged :
  merge (options w1) migratedState initialState = Ret merged →
  state (fromMergeStage initialState cb migratedState w1).2 = Some merged.
Proof.
  intros Hmerge. unfold fromMergeStage.
  rewrite keeps_bind_tail.
  2:{ intros t3. apply keeps_bind.
      - apply keeps_then_. intros u. by apply keeps_finishStage.
      - intros t4. apply keeps_catch_. intros e. by apply keeps_catchStage. }
  simpl. rewrite thenablify_world. unfold mergeStage.
  rewrite (bind_Ret (gets options) _ w1 _ w1 eq_refl).
  unfold bind at 1, call at 1. rewrite Hmerge.
  unfold bind at 1, modify at 1. unfold bind at 1, setState at 1, modify at 1.
  rewrite keeps_bind_tail; [|intros t; apply keeps_ret].
  by rewrite keeps_updatePersistentStorage.
Qed.

(** X18.  On a pass that reads a persisted envelope: when the envelope has
    no version, or the configured one, its state goes to the merge stage as
    it is, unless it has a member named [then]: such a state is taken for a
    thenable and the [then] call that would attach the merge stage throws a
    [TypeError] out of [hydrate].  When the version differs and no
    [migrate] is configured, an error goes to the console, the merge stage
    gets [undefined] and the rest of the chain runs from there; under the
    default merge the in-memory state is then the initial state of the
    store, whatever it was before.  When the version differs and [migrate]
    is configured, the state [migrate(state, version)] returns goes to the
    merge stage, again unless it has a [then] member, and what [migrate]
    throws rejects the chain. *)
Theorem version_resolution :
  ((env_version sv = None ∨ env_version sv = Some (version (options w))) →
     (env_state sv !! "then" = None →
        hydrateChain setState getState initialState cb w
        = fromMergeStage initialState cb (PState (env_state sv)) w)
     ∧ (is_Some (env_state sv !! "then") →
        hydrateChain setState getState initialState cb w
        = (Throw typeError, w)))
  ∧ (∀ v, env_version sv = Some v → v ≠ version (options w) →
       migrate (options w) = None →
       let w1 :=
         set_log (log w ++ [ConsoleError messages.couldNotMigrate]) w in
       hydrateChain setState getState initialState cb w
       = fromMergeStage initialState cb PUndefined w1
       ∧ ((∀ s, merge (options w) PUndefined s = Ret (spread s ∅)) →
          state (hydrateChain setState getState initialState cb w).2
          = Some initialState))
  ∧ (∀ v f, env_version sv = Some v → v ≠ version (options w) →
       migrate (options w) = Some f →
       (∀ s', f (env_state sv) v = Ret (Now s') →
          (s' !! "then" = None →
             hydrateChain setState getState initialState cb w
             = fromMergeStage initialState cb (PState s') w)
          ∧ (is_Some (s' !! "then") →
             hydrateChain setState getState initialState cb w
             = (Throw typeError, w)))
       ∧ (∀ e, f (env_state sv) v = Throw e →
          hydrateChain setState getState initialState cb w
          = (t3 <- then_ (Rejected e false)
                     (mergeStage setState getState initialState) ;;
             t4 <- then_ t3 (finishStage cb) ;;
             catch_ t4 (catchStage cb)) w)).
Proof.
  split; [|split].
  - intros Hv.
    assert (Hstage : then_ (Fulfilled (Some sv) false) versionStage w
                     = thenablify (λ s, ret (returnedState s)) false
                         (env_state sv) w).
    { unfold then_, thenablify, tryCatch, versionStage, bind, gets.
      destruct Hv as [->| ->]; simpl; [done|].
      by rewrite bool_decide_eq_true_2. }
    split; intros Hs; rewrite hydrateChain_read; unfold bind at 1;
      rewrite Hstage.
    + by rewrite (thenablify_returnedState_plain _ w Hs).
    + by rewrite (thenablify_returnedState_record _ w Hs).
  - intros v Hv Hne Hmig w1.
    assert (Hchain : hydrateChain setState getState initialState cb w
                     = fromMergeStage initialState cb PUndefined w1).
    { rewrite hydrateChain_read. unfold fromMergeStage.
      rewrite (bind_Ret (then_ (Fulfilled (Some sv) false) versionStage) _ w
                 (Fulfilled PUndefined false) w1); [done|].
      unfold then_, thenablify, tryCatch, versionStage, bind, gets.
      rewrite Hv. simpl. rewrite bool_decide_eq_false_2 by done.
      by rewrite Hmig. }
    split; [done|]. intros Hmerge. rewrite Hchain.
    apply state_fromMergeStage. simpl. by rewrite Hmerge, spread_undefined.
  - intros v f Hv Hne Hmig. split.
    + intros s' Hf.
      assert (Hstage : then_ (Fulfilled (Some sv) false) versionStage w
                       = thenablify (λ s, ret (returnedState s)) false s' w).
      { unfold then_, thenablify, tryCatch, versionStage, bind, gets, call.
        rewrite Hv. simpl. rewrite bool_decide_eq_false_2 by done.
        by rewrite Hmig, Hf. }
      split; intros Hs; rewrite hydrateChain_read; unfold bind at 1;
        rewrite Hstage.
      * by rewrite (thenablify_returnedState_plain _ w Hs).
      * by rewrite (thenablify_returnedState_record _ w Hs).
    + intros e Hf. rewrite hydrateChain_read.
      rewrite (bind_Ret (then_ (Fulfilled (Some sv) false) versionStage) _ w
                 (Rejected e false) w); [done|].
      unfold then_, thenablify, tryCatch, versionStage, bind, gets, call.
      rewrite Hv. simpl. rewrite bool_decide_eq_false_2 by done.
      by rewrite Hmig, Hf.
Qed.
End VersionResolution.

(** A store made over an empty storage, set to [{ count: 5 }], and then
    given the target version 1 with no [migrate]. *)
Lemma version_resolution_witness :
  let w0 := counterStore counterHost noMembers ∅ in
  let w1 := (persistedSet setState getState (Partial (counter 5), false) w0).2 in
  let w := (setOptions (onlyVersion 1) w1).2 in
  hydrateChain setState getState (counter 0) None w
  = fromMergeStage (counter 0) None PUndefined
      (set_log (log w ++ [ConsoleError messages.couldNotMigrate]) w)
  ∧ state (hydrateChain setState getState (counter 0) None w).2
    = Some (counter 0).
Proof.
  intros w0 w1 w.
  assert (Hst : persistentStorage w = Some memoryStorage)
    by (vm_compute; reflexivity).
  assert (Hget : getItem memoryStorage (name (options w)) (medium w)
                 = Ret (Now (Some "05"))) by (vm_compute; reflexivity).
  assert (Hde : deserialize (options w) "05"
                = Ret (Now {| env_state := counter 5;
                              env_version := Some 0%Z |}))
    by (vm_compute; reflexivity).
  destruct (version_resolution (counter 0) None w memoryStorage "05"
              {| env_state := counter 5; env_version := Some 0%Z |}
              Hst Hget Hde) as (_ & Hno & _).
  assert (Hne : 0%Z ≠ version (options w)) by (vm_compute; discriminate).
  assert (Hmig : migrate (options w) = None) by (vm_compute; reflexivity).
  destruct (Hno 0%Z eq_refl Hne Hmig) as [Hchain Hstate].
  split; [exact Hchain|]. apply Hstate. intros s. reflexivity.
Defined.

(** C1, at an input where the code departs from it: on that store the
    stored version, 0, differs from the target version and there is no
    [migrate].  The error goes to the console, the merge stage gets
    [undefined] and the pass runs to its end with the flag true; but the
    merge is made with the state the initializer returned, not with the
    current one, so the state falls back from [{ count: 5 }] to
    [{ count: 0 }], and the entry is rewritten from that state at the new
    version. *)
Theorem unmigrated_state_is_reset :
  let w0 := counterStore counterHost noMembers ∅ in
  let w1 := (persistedSet setState getState (Partial (counter 5), false) w0).2 in
  let w := (setOptions (onlyVersion 1) w1).2 in
  let r := rehydrate (counter 0) w in
  state w = Some (counter 5)
  ∧ medium w = {[ "app" := "05" ]}
  ∧ r.1 = Ret (Fulfilled tt true)
  ∧ hasHydrated r.2 = true
  ∧ state r.2 = Some (counter 0)
  ∧ medium r.2 = {[ "app" := "10" ]}
  ∧ log r.2
    = log w ++ [HasHydratedSet false;
                ConsoleError messages.couldNotMigrate;
                HasHydratedSet true].
Proof. vm_compute. repeat split. Qed.

(** Hence the sentence of the specification, that the state stays at its
    value from before the pass, does not hold of the code. *)
Lemma no_migrator_claim_fails : ¬ no_migrator_claim.
Proof.
  intros H.
  set (w0 := counterStore counterHost noMembers ∅).
  set (w1 := (persistedSet setState getState
                (Partial (counter 5), false) w0).2).
  set (w := (setOptions (onlyVersion 1) w1).2).
  assert (Hst : persistentStorage w = Some memoryStorage)
    by (vm_compute; reflexivity).
  assert (Hget : getItem memoryStorage (name (options w)) (medium w)
                 = Ret (Now (Some "05"))) by (vm_compute; reflexivity).
  assert (Hde : deserialize (options w) "05"
                = Ret (Now {| env_state := counter 5;
                              env_version := Some 0%Z |}))
    by (vm_compute; reflexivity).
  assert (Hne : 0%Z ≠ version (options w)) by (vm_compute; discriminate).
  assert (Hmig : migrate (options w) = None) by (vm_compute; reflexivity).
  specialize (H (counter 0) w memoryStorage "05"
                {| env_state := counter 5; env_version := Some 0%Z |} 0%Z
                Hst Hget Hde eq_refl Hne Hmig (λ p s, eq_refl)).
  apply (f_equal (fmap countOf)) in H. vm_compute in H. discriminate H.
Qed.

(** ** Failures on the way *)

(** C4, at an input where the code departs from it: a store with a
    post-rehydration callback and a finish-hydration listener that throws,
    over an empty synchronous storage.  The callback gets the merged state
    and no error, the flag is set, the listener throws, and [rehydrate()]
    throws that error at its caller; the callback is never called with the
    error. *)
Theorem completion_failure_escapes :
  let w := (onFinishHydration throwingListener
              (counterStore counterHost withCallback ∅)).2 in
  let r := rehydrate (counter 0) w in
  r.1 = Throw "listener failed"
  ∧ hasHydrated r.2 = true
  ∧ log r.2
    = log w ++ [HasHydratedSet false;
                OnRehydrateStorageCalled (Some (counter 0));
                PostRehydrationCalled (Some (counter 0)) None;
                HasHydratedSet true;
                ListenerCalled 1 (Some (counter 0))].
Proof. vm_compute. repeat split. Qed.

(** A failure before the stage after the merge is routed as C4 says: when
    the storage refuses the write, the callback gets the error and
    [rehydrate()] returns normally. *)
Lemma write_failure_routed :
  let h := {| localStorage := λ _, Ret (Some fullStorage);
              JSON_stringify := counterStringify;
              JSON_parse := counterParse |} in
  let w := counterStore h withCallback ∅ in
  let r := rehydrate (counter 0) w in
  r.1 = Ret (Fulfilled tt false)
  ∧ hasHydrated r.2 = false
  ∧ log r.2
    = log w ++ [HasHydratedSet false;
                OnRehydrateStorageCalled (Some (counter 0));
                PostRehydrationCalled None (Some "QuotaExceededError")].
Proof. vm_compute. repeat split. Qed.

(** ** The hydration scenario *)




(** * Further properties of the code *)

(** ** The emitter *)

Lemma set_log_log w : set_log (log w) w = w.
Proof. by destruct w. Qed.

Lemma emit_all_return (listeners : list Listener) a w :
  Forall (returnsAt a) listeners →
  emit listeners a w = (Ret tt, set_log (log w ++ callsOf listeners a) w).
Proof.
  revert w. induction listeners as [|f rest IH]; intros w Hall.
  - simpl. by rewrite app_nil_r, set_log_log.
  - inversion Hall as [|? ? Hf Hrest]; subst. simpl.
    unfold bind at 1, trace, modify. unfold bind at 1, call. rewrite Hf.
    rewrite (IH _ Hrest). simpl. by rewrite <- app_assoc.
Qed.

Lemma emit_first_throw (before after : list Listener) f e a w :
  Forall (returnsAt a) before → lcall f a = Throw e →
  emit (before ++ f :: after) a w
  = (Throw e, set_log (log w ++ callsOf (before ++ [f]) a) w).
Proof.
  revert w. induction before as [|g rest IH]; intros w Hall Hf.
  - simpl. unfold bind at 1, trace, modify. unfold bind at 1, call.
    by rewrite Hf.
  - inversion Hall as [|? ? Hg Hrest]; subst. simpl.
    unfold bind at 1, trace, modify. unfold bind at 1, call. rewrite Hg.
    rewrite (IH _ Hrest Hf). simpl. by rewrite <- app_assoc.
Qed.

(** X1.  [emit] calls the listeners in the order of the set.  When they all
    return, each is called once and [emit] returns; when one throws, [emit]
    throws its error and the listeners after it are not called. *)
Theorem emit_in_order (before after : list Listener) (f : Listener)
    (e : error) (a : option EState) (w : world)
    (Hbefore : Forall (returnsAt a) before) :
  (Forall (returnsAt a) after → lcall f a = Ret tt →
     emit (before ++ f :: after) a w
     = (Ret tt,
        set_log (log w ++ callsOf (before ++ f :: after) a) w))
  ∧ (lcall f a = Throw e →
     emit (before ++ f :: after) a w
     = (Throw e, set_log (log w ++ callsOf (before ++ [f]) a) w)).
Proof.
  split.
  - intros Hafter Hf. apply emit_all_return.
    apply Forall_app. split; [done|]. by constructor.
  - by apply emit_first_throw.
Qed.

Lemma emit_in_order_witness :
  let w := emptyWorld counterHost ∅ in
  emit [quietListener; throwingListener; quietListener] None w
  = (Throw "listener failed",
     set_log (log w ++ callsOf [quietListener; throwingListener] None) w).
Proof.
  intros w.
  apply (emit_in_order [quietListener] [quietListener] throwingListener
           "listener failed" None w).
  - repeat constructor.
  - reflexivity.
Defined.

Lemma setAdd_present l ls : lid l ∈ idsOf ls → setAdd l ls = ls.
Proof. intros H. unfold setAdd. by rewrite bool_decide_eq_true_2. Qed.

Lemma setAdd_absent l ls : lid l ∉ idsOf ls → setAdd l ls = ls ++ [l].
Proof. intros H. unfold setAdd. by rewrite bool_decide_eq_false_2. Qed.

Lemma setAdd_elem l ls : lid l ∈ idsOf (setAdd l ls).
Proof.
  destruct (decide (lid l ∈ idsOf ls)) as [H|H].
  - by rewrite setAdd_present.
  - rewrite setAdd_absent by done. unfold idsOf. rewrite fmap_app.
    apply elem_of_app. right. simpl. apply list_elem_of_singleton. done.
Qed.

Lemma setDelete_absent l ls : lid l ∉ idsOf ls → setDelete l ls = ls.
Proof.
  intros H. unfold setDelete. induction ls as [|x rest IH]; [done|].
  unfold idsOf in H. simpl in H. apply not_elem_of_cons in H as [Hx Hrest].
  rewrite filter_cons_True by congruence. f_equal. by apply IH.
Qed.

Lemma setDelete_not_elem l ls : lid l ∉ idsOf (setDelete l ls).
Proof.
  unfold setDelete, idsOf. intros H. apply list_elem_of_fmap in H as (x & Hx & Hin).
  apply list_elem_of_filter in Hin as [Hne _]. congruence.
Qed.

Lemma setDelete_app l ls ls' :
  setDelete l (ls ++ ls') = setDelete l ls ++ setDelete l ls'.
Proof. unfold setDelete. apply filter_app. Qed.

Lemma setDelete_setAdd l ls : setDelete l (setAdd l ls) = setDelete l ls.
Proof.
  destruct (decide (lid l ∈ idsOf ls)) as [H|H].
  - by rewrite setAdd_present.
  - rewrite setAdd_absent, setDelete_app by done.
    unfold setDelete at 2. rewrite filter_cons_False by (intros Hne; by apply Hne).
    by rewrite filter_nil, app_nil_r.
Qed.

Lemma setDelete_idemp l ls : setDelete l (setDelete l ls) = setDelete l ls.
Proof. apply setDelete_absent, setDelete_not_elem. Qed.

(** X2.  [listen] adds the listener to the set, at its end when it is new
    and not at all when it is there already, and returns a function that,
    whenever it is called, removes that listener and no other: a later
    [emit] does not call it, and calling the function again changes
    nothing. *)
Theorem listen_then_unsubscribe (l : Listener) (w : world) :
  ∃ unsubscribe,
    onFinishHydration l w
    = (Ret unsubscribe,
       set_finishHydrationListeners (setAdd l (finishHydrationListeners w)) w)
    ∧ lid l ∈ idsOf (setAdd l (finishHydrationListeners w))
    ∧ (lid l ∉ idsOf (finishHydrationListeners w) →
       setAdd l (finishHydrationListeners w)
       = finishHydrationListeners w ++ [l])
    ∧ (lid l ∈ idsOf (finishHydrationListeners w) →
       setAdd l (finishHydrationListeners w) = finishHydrationListeners w)
    ∧ ∀ w1,
        (let w2 := (unsubscribe w1).2 in
         unsubscribe w1
         = (Ret tt,
            set_finishHydrationListeners
              (setDelete l (finishHydrationListeners w1)) w1)
         ∧ (∀ a, ListenerCalled (lid l) a
                 ∉ callsOf (finishHydrationListeners w2) a)
         ∧ (∀ x, x ∈ finishHydrationListeners w1 → lid x ≠ lid l →
                 x ∈ finishHydrationListeners w2)
         ∧ unsubscribe w2 = (Ret tt, w2)).
Proof.
  eexists. split; [reflexivity|].
  split; [apply setAdd_elem|].
  split; [apply setAdd_absent|].
  split; [apply setAdd_present|].
  intros w1. cbv zeta. simpl.
  split; [done|].
  split.
  - intros a Hin. unfold callsOf in Hin.
    apply list_elem_of_fmap in Hin as (x & Hx & Hin).
    apply (setDelete_not_elem l (finishHydrationListeners w1)).
    unfold idsOf. apply list_elem_of_fmap. exists x. split; [congruence|done].
  - split.
    + intros x Hx Hne. unfold setDelete. by apply list_elem_of_filter.
    + unfold modify. simpl. by rewrite setDelete_idemp.
Qed.

(** ** The mode of a thenable chain *)

Lemma thenAll_defaultMode {T} (stages : list (T → Js (Returned T))) t w :
  Forall plainStage stages → defaultMode t →
  ∃ t', (thenAll stages t w).1 = Ret t' ∧ defaultMode t'.
Proof.
  revert t w. induction stages as [|f rest IH]; intros t w Hall Ht.
  - by exists t.
  - inversion Hall as [|? ? Hf Hrest]; subst. simpl.
    destruct (then_defaultMode t f w Ht (λ r, Hf r w)) as (t1 & E1 & H1).
    unfold bind. destruct (then_ t f w) as [[t1'|e] w1]; simpl in E1; [|done].
    injection E1 as ->. by apply IH.
Qed.

Lemma thenablify_writeMode {A R} (f : A → Js (Returned R)) a w :
  plainOrThrow (f a w).1 →
  match (thenablify f true a w).1 with
  | Ret t => fulfilledInWriteMode t
  | Throw _ => True
  end.
Proof.
  unfold thenablify, tryCatch, bind.
  by destruct (f a w) as [[[v|t]|e] w'].
Qed.

Lemma thenAll_writeMode {T} (stages : list (T → Js (Returned T))) t w :
  Forall plainStage stages → fulfilledInWriteMode t →
  match (thenAll stages t w).1 with
  | Ret t' => fulfilledInWriteMode t'
  | Throw _ => True
  end.
Proof.
  revert t w. induction stages as [|f rest IH]; intros t w Hall Ht.
  - done.
  - inversion Hall as [|? ? Hf Hrest]; subst. simpl.
    destruct t as [r ti|e ti|p|s]; simpl in Ht; [subst ti|done..].
    pose proof (thenablify_writeMode f r w (Hf r w)) as H1.
    unfold bind. simpl.
    destruct (thenablify f true r w) as [[t1|e] w1]; simpl in *; [|done].
    by apply IH.
Qed.

(** X3.  A chain of [then] stages that return plain values or throw keeps
    the mode of the [thenablify] call that starts it: started in the default
    mode it always returns a thenable, in the default mode; started in
    throw-immediately mode it either throws or returns a thenable that holds
    a value, in throw-immediately mode, never a rejected one. *)
Theorem chain_keeps_its_mode {A T} (f : A → Js (Returned T)) (a : A)
    (stages : list (T → Js (Returned T))) (w : world)
    (Hf : plainStage f) (Hstages : Forall plainStage stages) :
  (∃ t, ((t0 <- thenablify f false a ;; thenAll stages t0) w).1 = Ret t
        ∧ defaultMode t)
  ∧ match ((t0 <- thenablify f true a ;; thenAll stages t0) w).1 with
    | Ret t => fulfilledInWriteMode t
    | Throw _ => True
    end.
Proof.
  split.
  - destruct (thenablify_defaultMode f a w (Hf a w)) as (t0 & E0 & H0).
    unfold bind. destruct (thenablify f false a w) as [[t0'|e] w0];
      simpl in E0; [|done].
    injection E0 as ->. by apply thenAll_defaultMode.
  - pose proof (thenablify_writeMode f a w (Hf a w)) as H0.
    unfold bind. destruct (thenablify f true a w) as [[t0|e] w0];
      simpl in *; [|done].
    by apply thenAll_writeMode.
Qed.

Lemma chain_keeps_its_mode_witness :
  let w := emptyWorld counterHost ∅ in
  (∃ t, ((t0 <- thenablify noisyStage false 1%Z ;;
          thenAll [noisyStage; noisyStage] t0) w).1 = Ret t
        ∧ defaultMode t)
  ∧ match ((t0 <- thenablify noisyStage true 1%Z ;;
            thenAll [noisyStage; noisyStage] t0) w).1 with
    | Ret t => fulfilledInWriteMode t
    | Throw _ => True
    end.
Proof.
  intros w.
  apply (chain_keeps_its_mode noisyStage 1%Z [noisyStage; noisyStage] w).
  - intros a w'. exact I.
  - repeat constructor.
Defined.

(** X4.  When a stage returns a thenable, [then] hands that thenable back as
    it is, so that its mode replaces the mode of the chain: after a stage
    that returns a thenable in throw-immediately mode, the error of the next
    stage is thrown at the caller, also when a [catch] follows. *)
Theorem returned_thenable_takes_over {T U V} (r : T) (ti : bool)
    (f : T → Js (Returned U)) (g : U → Js (Returned V))
    (v : U) (e : error) (w w1 w2 : world)
    (Hf : f r w = (Ret (Thenish (Fulfilled v true)), w1))
    (Hg : g v w1 = (Throw e, w2)) :
  then_ (Fulfilled r ti) f w = (Ret (Fulfilled v true), w1)
  ∧ (t1 <- then_ (Fulfilled r ti) f ;; then_ t1 g) w = (Throw e, w2)
  ∧ ∀ h : error → Js (Returned V),
      (t1 <- then_ (Fulfilled r ti) f ;; t2 <- then_ t1 g ;; catch_ t2 h) w
      = (Throw e, w2).
Proof.
  assert (H1 : then_ (Fulfilled r ti) f w = (Ret (Fulfilled v true), w1)).
  { simpl. unfold thenablify, tryCatch, bind. rewrite Hf. by destruct ti. }
  assert (H2 : then_ (Fulfilled v true) g w1 = (Throw e, w2)).
  { simpl. unfold thenablify, tryCatch, bind. by rewrite Hg. }
  split; [done|]. split.
  - by rewrite (bind_Ret _ _ _ _ _ H1).
  - intros h. rewrite (bind_Ret _ _ _ _ _ H1). by rewrite (bind_Throw _ _ _ _ _ H2).
Qed.

Lemma returned_thenable_takes_over_witness :
  let w := emptyWorld counterHost ∅ in
  let f : Z → Js (Returned Z) := λ r, ret (Thenish (Fulfilled r true)) in
  let g : Z → Js (Returned Z) := λ _, throw "stage failed" in
  then_ (Fulfilled 1%Z false) f w = (Ret (Fulfilled 1%Z true), w)
  ∧ (t1 <- then_ (Fulfilled 1%Z false) f ;; then_ t1 g) w
    = (Throw "stage failed", w)
  ∧ ∀ h : error → Js (Returned Z),
      (t1 <- then_ (Fulfilled 1%Z false) f ;; t2 <- then_ t1 g ;;
       catch_ t2 h) w
      = (Throw "stage failed", w).
Proof.
  intros w f g.
  apply (returned_thenable_takes_over 1%Z false f g 1%Z "stage failed"
           w w w); reflexivity.
Defined.

(** ** The stages of [hydrate] *)

Lemma set_medium_medium w : set_medium (medium w) w = w.
Proof. by destruct w. Qed.

(** Reading the entry leaves the world as it was. *)
Lemma getItem_run st w :
  persistentStorage w = Some st →
  thenablify persistentStorageGetItem false tt w
  = (match getItem st (name (options w)) (medium w) with
     | Ret (Now x) => Ret (Fulfilled x false)
     | Ret (Later p) => Ret (PromiseLike p)
     | Throw e => Ret (Rejected e false)
     end, w).
Proof.
  intros Hst.
  unfold thenablify, tryCatch, persistentStorageGetItem, storageMethod,
    bind, gets. simpl. rewrite Hst. rewrite set_medium_medium.
  by destruct (getItem st (name (options w)) (medium w)) as [[x|p]|e].
Qed.

Lemma getItem_no_handle w :
  persistentStorage w = None →
  thenablify persistentStorageGetItem false tt w
  = (Ret (Rejected typeError false), w).
Proof.
  intros Hst.
  unfold thenablify, tryCatch, persistentStorageGetItem, storageMethod,
    bind, gets. simpl. by rewrite Hst.
Qed.

(** X5.  When the storage has no entry ([getItem] returns [null]), the
    deserializer and the version stage are passed over and the merge stage
    gets [null]: the state is replaced by [merge(null, initialState)]. *)
Theorem hydrate_absent_entry (initialState : EState)
    (cb : option PostRehydrationCallback) (w : world)
    (st : EPersistentStorage)
    (Hst : persistentStorage w = Some st)
    (Hget : getItem st (name (options w)) (medium w) = Ret (Now None)) :
  hydrateChain setState getState initialState cb w
  = fromMergeStage initialState cb PNull w
  ∧ ∀ merged, merge (options w) PNull initialState = Ret merged →
      state (hydrateChain setState getState initialState cb w).2
      = Some merged.
Proof.
  assert (H : hydrateChain setState getState initialState cb w
              = fromMergeStage initialState cb PNull w).
  { unfold hydrateChain.
    unfold bind at 1. rewrite (getItem_run st w Hst), Hget. done. }
  split; [done|]. intros merged Hmerge. rewrite H.
  by apply state_fromMergeStage.
Qed.

Lemma hydrate_absent_entry_witness :
  let w := counterWorld counterHost (Some memoryStorage) ∅ in
  hydrateChain setState getState (counter 0) None w
  = fromMergeStage (counter 0) None PNull w
  ∧ ∀ merged, merge (options w) PNull (counter 0) = Ret merged →
      state (hydrateChain setState getState (counter 0) None w).2
      = Some merged.
Proof.
  intros w.
  apply (hydrate_absent_entry (counter 0) None w memoryStorage);
    reflexivity.
Defined.

(** X6.  When reading fails (no handle, [getItem] throws, or the
    deserializer throws), the chain goes to the final [catch] with that
    error and returns a thenable; state, storage and flag stay as they are,
    and without a post-rehydration callback nothing at all happens. *)
Theorem hydrate_read_failure (initialState : EState)
    (cb : option PostRehydrationCallback) (w : world) (e : error)
    (Hfail : readFails w e) :
  let r := hydrateChain setState getState initialState cb w in
  r = thenablify (catchStage cb) false e w
  ∧ (∃ t, r.1 = Ret t)
  ∧ state r.2 = state w ∧ medium r.2 = medium w
  ∧ hasHydrated r.2 = hasHydrated w
  ∧ (cb = None → r = (Ret (Fulfilled tt false), w)).
Proof.
  intros r.
  assert (H : r = thenablify (catchStage cb) false e w).
  { unfold r, hydrateChain. unfold readFails in Hfail.
    destruct (persistentStorage w) as [st|] eqn:Hst.
    - unfold bind at 1. rewrite (getItem_run st w Hst).
      destruct Hfail as [Hget|(text & Hget & Hde)]; rewrite Hget; [done|].
      assert (H1 : then_ (Fulfilled (Some text) false) deserializeStage w
                   = (Ret (Rejected e false), w)).
      { unfold then_, thenablify, tryCatch, deserializeStage, bind, gets,
          call. simpl. by rewrite Hde. }
      by rewrite (bind_Ret _ _ _ _ _ H1).
    - subst e. by rewrite (bind_Ret _ _ _ _ _ (getItem_no_handle w Hst)). }
  split; [done|]. rewrite H.
  split; [apply thenablify_default_returns|].
  pose proof (λ X (F : world → X) HF,
                keeps_thenablify F (catchStage cb) false e
                  (keeps_catchStage F HF cb e) w) as Hkeep.
  split; [by apply (Hkeep _ state)|].
  split; [by apply (Hkeep _ medium)|].
  split; [by apply (Hkeep _ hasHydrated)|].
  by intros ->.
Qed.

Lemma hydrate_read_failure_witness :
  let w := counterWorld counterHost (Some memoryStorage)
             {[ "app" := "corrupt" ]} in
  let r := hydrateChain setState getState (counter 0) None w in
  r = thenablify (catchStage None) false "SyntaxError" w
  ∧ (∃ t, r.1 = Ret t)
  ∧ state r.2 = state w ∧ medium r.2 = medium w
  ∧ hasHydrated r.2 = hasHydrated w
  ∧ (@None PostRehydrationCallback = None →
     r = (Ret (Fulfilled tt false), w)).
Proof.
  intros w.
  apply (hydrate_read_failure (counter 0) None w "SyntaxError").
  right. exists "corrupt". split; reflexivity.
Defined.

(** X7.  When the write of the merge stage fails, the state has already been
    replaced by the merged state; the error goes to the final [catch], the
    chain returns a thenable, and the flag is not set. *)
Theorem hydration_write_failure (initialState : EState)
    (cb : option PostRehydrationCallback) (migratedState : Persisted)
    (w : world) (st : EPersistentStorage)
    (merged selected : EState) (text : string) (e : error)
    (Hmerge : merge (options w) migratedState initialState = Ret merged)
    (Hsel : partialize (options w) merged = Ret selected)
    (Hser : serialize (options w)
              {| env_state := selected;
                 env_version := Some (version (options w)) |}
            = Ret (Now text))
    (Hst : persistentStorage w = Some st)
    (Hset : (setItem st (name (options w)) text (medium w)).1 = Throw e) :
  let w1 :=
    set_medium (setItem st (name (options w)) text (medium w)).2
      (set_state (Some merged)
         (set_initialStateFromPersistentStorage (Some merged) w)) in
  let r := fromMergeStage initialState cb migratedState w in
  r = thenablify (catchStage cb) false e w1
  ∧ (∃ t, r.1 = Ret t)
  ∧ state r.2 = Some merged
  ∧ hasHydrated r.2 = hasHydrated w.
Proof.
  intros w1 r.
  assert (Hr : r = thenablify (catchStage cb) false e w1).
  { unfold r, fromMergeStage.
    assert (H : then_ (Fulfilled migratedState false)
                  (mergeStage setState getState initialState) w
                = (Ret (Rejected e false), w1)).
    { unfold then_, mergeStage, updatePersistentStorage, bind, setState,
        getState, modify, gets, call, thenablify, tryCatch; simpl.
      unfold bind. rewrite Hmerge. unfold nextState. simpl.
      rewrite spread_empty_l, Hsel.
      unfold bind, call. rewrite Hser. simpl.
      unfold thenablify, tryCatch, persistentStorageSetItem, storageMethod,
        bind, gets, ret; simpl.
      rewrite Hst. unfold w1. clear w1 r.
      change (medium (set_state (Some merged)
                (set_initialStateFromPersistentStorage (Some merged) w)))
        with (medium w).
      destruct (setItem st (name (options w)) text (medium w)) as [x data].
      simpl in *. by subst x. }
    by rewrite (bind_Ret _ _ _ _ _ H). }
  split; [done|]. rewrite Hr.
  split; [apply thenablify_default_returns|].
  pose proof (λ X (F : world → X) HF,
                keeps_thenablify F (catchStage cb) false e
                  (keeps_catchStage F HF cb e) w1) as Hkeep.
  split; [by rewrite (Hkeep _ state)|by rewrite (Hkeep _ hasHydrated)].
Qed.

Lemma hydration_write_failure_witness :
  let w := counterWorld fullHost (Some fullStorage) ∅ in
  let w1 :=
    set_medium (setItem fullStorage (name (options w)) "00" (medium w)).2
      (set_state (Some (counter 0))
         (set_initialStateFromPersistentStorage (Some (counter 0)) w)) in
  let r := fromMergeStage (counter 0) None PNull w in
  r = thenablify (catchStage None) false "QuotaExceededError" w1
  ∧ (∃ t, r.1 = Ret t)
  ∧ state r.2 = Some (counter 0)
  ∧ hasHydrated r.2 = hasHydrated w.
Proof.
  intros w.
  apply (hydration_write_failure (counter 0) None PNull w fullStorage
           (counter 0) (counter 0) "00" "QuotaExceededError");
    reflexivity.
Defined.



(** X8.  An error thrown by a hydration listener or by [onRehydrateStorage]
    leaves [rehydrate()] as a thrown error, before the storage is read: the
    flag has been reset, and state and storage are untouched. *)
Theorem hydrate_prelude_failure (initialState : EState) (w : world)
    (e : error) (calls : list event)
    (Hfail : announcementFails w e calls) :
  rehydrate initialState w
  = (Throw e,
     set_log (log w ++ HasHydratedSet false :: calls)
       (set_hasHydrated false w)).
Proof.
  unfold rehydrate, hydrate. apply bind_Throw.
  unfold hydratePrelude, setHasHydrated, trace.
  set (w0 := set_hasHydrated false (set_log (log w ++ [HasHydratedSet false]) w)).
  assert (H0 : (modify (λ w, set_log (log w ++ [HasHydratedSet false]) w) ;;
                modify (set_hasHydrated false)) w = (Ret tt, w0)) by done.
  rewrite (bind_Ret _ _ _ _ _ H0).
  unfold announceHydration.
  rewrite (bind_Ret getState _ w0 _ w0 eq_refl).
  rewrite (bind_Ret (gets hydrationListeners) _ w0 _ w0 eq_refl).
  change (state w0) with (state w).
  change (hydrationListeners w0) with (hydrationListeners w).
  destruct Hfail as [(before & f & after & -> & Hbefore & Hf & ->)
                    |(Hall & g & Hg & He & ->)].
  - erewrite bind_Throw; [|by apply emit_first_throw].
    f_equal. destruct w; simpl. unfold w0, set_log; simpl.
    by rewrite <- app_assoc.
  - erewrite bind_Ret; [|by apply emit_all_return].
    set (w1 := set_log _ w0).
    rewrite (bind_Ret (gets options) _ w1 _ w1 eq_refl).
    change (options w1) with (options w). rewrite Hg.
    rewrite (bind_Ret getState _ w1 _ w1 eq_refl).
    change (state w1) with (state w).
    unfold bind, trace, modify, call. rewrite He.
    f_equal. destruct w; simpl. unfold w1, w0, set_log; simpl.
    by rewrite <- !app_assoc.
Qed.

Lemma hydrate_prelude_failure_witness :
  let w := set_hydrationListeners [throwingListener]
             (counterWorld counterHost (Some memoryStorage) ∅) in
  rehydrate (counter 0) w
  = (Throw "listener failed",
     set_log (log w ++ [HasHydratedSet false;
                        ListenerCalled 1 (Some (counter 0))])
       (set_hasHydrated false w)).
Proof.
  intros w.
  apply (hydrate_prelude_failure (counter 0) w "listener failed"
           [ListenerCalled 1 (Some (counter 0))]).
  left. exists [], throwingListener, [].
  split; [reflexivity|]. split; [constructor|]. split; reflexivity.
Defined.

(** X9.  When the storage, the deserializer or the migrate function answers
    with a promise, the rest of the chain is handed to that promise:
    [hydrate] returns it with nothing done, the world is as it was. *)
Theorem hydrate_deferred (initialState : EState)
    (cb : option PostRehydrationCallback) (w : world) (p : promise) (n : nat)
    (Hdefer : deferredAt w p n) :
  hydrateChain setState getState initialState cb w
  = (Ret (PromiseLike (Nat.iter n Chained p)), w).
Proof.
  unfold deferredAt in Hdefer.
  destruct (persistentStorage w) as [st|] eqn:Hst; [|done].
  unfold hydrateChain. unfold bind at 1.
  rewrite (getItem_run st w Hst).
  destruct Hdefer as [[Hget ->]|(text & Hget & Hrest)]; rewrite Hget; [done|].
  destruct Hrest as [[Hde ->]|(sv & v & f & Hde & Hv & Hne & Hm & Hf & ->)].
  - assert (H1 : then_ (Fulfilled (Some text) false) deserializeStage w
                 = (Ret (PromiseLike p), w)).
    { unfold then_, thenablify, tryCatch, deserializeStage, bind, gets,
        call. simpl. by rewrite Hde. }
    by rewrite (bind_Ret _ _ _ _ _ H1).
  - assert (H1 : then_ (Fulfilled (Some text) false) deserializeStage w
                 = (Ret (Fulfilled (Some sv) false), w)).
    { unfold then_, thenablify, tryCatch, deserializeStage, bind, gets,
        call. simpl. by rewrite Hde. }
    rewrite (bind_Ret _ _ _ _ _ H1).
    assert (H2 : then_ (Fulfilled (Some sv) false) versionStage w
                 = (Ret (PromiseLike p), w)).
    { unfold then_, thenablify, tryCatch, versionStage, bind, gets, call.
      simpl. rewrite Hv. simpl. rewrite bool_decide_eq_false_2 by done.
      rewrite Hm. simpl. by rewrite Hf. }
    by rewrite (bind_Ret _ _ _ _ _ H2).
Qed.

Lemma hydrate_deferred_witness :
  let w := counterWorld asyncHost (Some asyncStorage) ∅ in
  hydrateChain setState getState (counter 0) None w
  = (Ret (PromiseLike (Nat.iter 5 Chained (HostPromise 0))), w).
Proof.
  intros w.
  apply (hydrate_deferred (counter 0) None w (HostPromise 0) 5).
  left. split; reflexivity.
Defined.

(** ** A completed hydration *)

Lemma logExtends_refl w : logExtends w w.
Proof. exists []. destruct w. simpl. by rewrite app_nil_r. Qed.

Lemma logExtends_trace e w : logExtends w (set_log (log w ++ [e]) w).
Proof. by exists [e]. Qed.


Lemma deserializeStage_run serialized w :
  ∃ t, then_ (Fulfilled serialized false) deserializeStage w = (Ret t, w)
       ∧ notWriteMode t.
Proof.
  unfold then_, thenablify, tryCatch, deserializeStage, bind, gets, call.
  destruct serialized as [text|]; simpl; [|by eexists].
  destruct (deserialize (options w) text) as [[sv|p]|e]; simpl; by eexists.
Qed.

Lemma versionStage_run storageValue w :
  ∃ t w', then_ (Fulfilled storageValue false) versionStage w = (Ret t, w')
          ∧ notWriteMode t ∧ logExtends w w'.
Proof.
  unfold then_, thenablify, tryCatch, versionStage, bind, gets, call,
    returnedMigrated, returnedState.
  destruct storageValue as [sv|]; simpl;
    [|eexists _, _; split; [done|split; [done|apply logExtends_refl]]].
  destruct (env_version sv) as [v|]; simpl;
    [|destruct (thenMember (env_state sv)); simpl;
      eexists _, _; (split; [done|split; [done|apply logExtends_refl]])].
  destruct (bool_decide (v = version (options w))); simpl;
    [destruct (thenMember (env_state sv)); simpl;
     eexists _, _; (split; [done|split; [done|apply logExtends_refl]])|].
  destruct (migrate (options w)) as [f|]; simpl.
  - destruct (f (env_state sv) v) as [[s|p]|e]; simpl;
      [destruct (thenMember s); simpl| |];
      eexists _, _; (split; [done|split; [done|apply logExtends_refl]]).
  - eexists _, _. split; [done|split; [done|apply logExtends_trace]].
Qed.

(** The three reading stages return a thenable that is not in
    throw-immediately mode and only add to the log. *)
Lemma readStages_run w :
  ∃ t2 w2,
    (t0 <- thenablify persistentStorageGetItem false tt ;;
     t1 <- then_ t0 deserializeStage ;;
     then_ t1 versionStage) w = (Ret t2, w2)
    ∧ notWriteMode t2 ∧ logExtends w w2.
Proof.
  assert (H0 : ∃ t0, thenablify persistentStorageGetItem false tt w
                     = (Ret t0, w) ∧ notWriteMode t0).
  { destruct (persistentStorage w) as [st|] eqn:Hst.
    - rewrite (getItem_run st w Hst).
      destruct (getItem st (name (options w)) (medium w)) as [[x|p]|e];
        by eexists.
    - rewrite (getItem_no_handle w Hst). by eexists. }
  destruct H0 as (t0 & H0 & Hm0). rewrite (bind_Ret _ _ _ _ _ H0).
  assert (H1 : ∃ t1, then_ t0 deserializeStage w = (Ret t1, w)
                     ∧ notWriteMode t1).
  { destruct t0 as [x ti|e ti|p|s]; simpl in Hm0; subst;
      [apply deserializeStage_run|by eexists|by eexists|].
    exfalso. revert H0. clear.
    destruct (persistentStorage w) as [st|] eqn:Hst.
    - rewrite (getItem_run st w Hst).
      by destruct (getItem st (name (options w)) (medium w)) as [[x|p]|e].
    - by rewrite (getItem_no_handle w Hst). }
  destruct H1 as (t1 & H1 & Hm1). rewrite (bind_Ret _ _ _ _ _ H1).
  assert (Ht1 : ∀ s, t1 ≠ RecordWithThen s).
  { intros s ->. revert H1. clear.
    destruct t0 as [x ti|e ti|p|s']; simpl; [|done..].
    unfold thenablify, tryCatch, deserializeStage, bind, gets, call.
    destruct x as [text|]; simpl; [|done].
    by destruct (deserialize (options w) text) as [[sv|p]|e]; destruct ti. }
  destruct t1 as [x ti|e ti|p|s]; simpl in Hm1; subst.
  - apply versionStage_run.
  - eexists _, _. split; [done|split; [done|apply logExtends_refl]].
  - eexists _, _. split; [done|split; [done|apply logExtends_refl]].
  - by destruct (Ht1 s).
Qed.

(** What [updatePersistentStorage] returns: a thenable fulfilled in
    throw-immediately mode after the write, or a promise. *)
Lemma updatePersistentStorage_inv w t w' :
  updatePersistentStorage getState w = (Ret t, w') →
  match t with
  | Fulfilled _ true =>
      writtenAs w (spread ∅ (fieldsOfState (state w))) (medium w')
      ∧ w' = set_medium (medium w') w
  | PromiseLike _ => True
  | _ => False
  end.
Proof.
  unfold updatePersistentStorage, writtenAs.
  rewrite (bind_Ret (gets options) _ w _ w eq_refl).
  rewrite (bind_Ret getState _ w _ w eq_refl).
  unfold bind at 1, call at 1. change (getState w).1 with (Ret (state w)).
  destruct (partialize (options w) (spread ∅ (fieldsOfState (state w))))
    as [selected|e] eqn:Hsel; [|done].
  unfold bind at 1, thenablify at 1, tryCatch, bind at 1, call at 1.
  destruct (serialize (options w) _) as [[text|p]|e] eqn:Hser; simpl;
    [|by intros [= <- <-]|done].
  unfold thenablify, tryCatch, persistentStorageSetItem, storageMethod,
    bind, gets, ret; simpl.
  destruct (persistentStorage w) as [st|] eqn:Hst; [|done].
  destruct (setItem st (name (options w)) text (medium w))
    as [[[[]|p]|e] data] eqn:Hset; simpl; [| |done].
  - intros [= <- <-]. split; [|done]. by exists st, selected, text.
  - by intros [= <- <-].
Qed.

Lemma mergeStage_run initialState migratedState w :
  mergeStage setState getState initialState migratedState w
  = match merge (options w) migratedState initialState with
    | Ret merged =>
        let r := updatePersistentStorage getState
                   (set_state (Some merged)
                      (set_initialStateFromPersistentStorage (Some merged) w))
        in
        (match r.1 with
         | Ret t => Ret (Thenish t)
         | Throw e => Throw e
         end, r.2)
    | Throw e => (Throw e, w)
    end.
Proof.
  unfold mergeStage.
  rewrite (bind_Ret (gets options) _ w _ w eq_refl).
  unfold bind at 1, call at 1.
  destruct (merge (options w) migratedState initialState) as [merged|e];
    [|done].
  unfold bind at 1, modify at 1. unfold bind at 1, setState at 1, modify at 1.
  unfold nextState. cbv beta iota zeta. unfold fst at 1, snd at 1.
  cbv beta iota. unfold bind.
  by destruct (updatePersistentStorage getState _) as [[t|e] w2].
Qed.

(** The merge stage, run on what the reading stages return. *)
Lemma mergeStage_inv initialState t2 w t3 w' :
  notWriteMode t2 →
  then_ t2 (mergeStage setState getState initialState) w = (Ret t3, w') →
  match t3 with
  | Fulfilled _ true =>
      ∃ migratedState merged,
        t2 = Fulfilled migratedState false
        ∧ merge (options w) migratedState initialState = Ret merged
        ∧ writtenAs w merged (medium w')
        ∧ w' = set_medium (medium w')
                 (set_state (Some merged)
                    (set_initialStateFromPersistentStorage (Some merged) w))
  | Rejected _ true => False
  | _ => True
  end.
Proof.
  intros Hmode.
  destruct t2 as [ms ti|e ti|p|s]; simpl in Hmode; subst; simpl;
    [|by intros [= <- <-]|by intros [= <- <-]|done].
  unfold thenablify, tryCatch, bind. rewrite mergeStage_run.
  destruct (merge (options w) ms initialState) as [merged|e] eqn:Hmerge;
    [|by intros [= <- <-]].
  cbv zeta.
  destruct (updatePersistentStorage getState _) as [[t|e] w2] eqn:Hup;
    simpl; [|by intros [= <- <-]].
  intros [= <- <-]. apply updatePersistentStorage_inv in Hup.
  destruct t as [u [|]|e ti|p|s]; try done.
  destruct Hup as [Hwritten Hw2]. simpl in Hwritten.
  rewrite spread_empty_l in Hwritten.
  exists ms, merged. done.
Qed.

Lemma catchStage_returns cb e w r w' :
  catchStage cb e w = (Ret r, w') → r = Plain tt.
Proof.
  unfold catchStage, callPostRehydration, bind, trace, modify, call, ret.
  destruct cb as [f|]; [|by intros [= <- _]].
  destruct (f None (Some e)); [by intros [= <- _]|done].
Qed.

(** The last two stages end fulfilled in throw-immediately mode only from a
    thenable in that mode. *)
Lemma completion_inv cb t3 w w' :
  (t4 <- then_ t3 (finishStage cb) ;; catch_ t4 (catchStage cb)) w
  = (Ret (Fulfilled tt true), w') →
  match t3 with
  | Fulfilled _ true =>
      state w' = state w ∧ medium w' = medium w
      ∧ initialStateFromPersistentStorage w'
        = initialStateFromPersistentStorage w
      ∧ config w' = config w
      ∧ hasHydrated w' = true
  | Rejected _ true => True
  | _ => False
  end.
Proof.
  destruct t3 as [u ti|e ti|p|s]; [| |done..].
  - simpl. unfold thenablify, tryCatch, bind.
    destruct (finishStage cb u w) as [[r|e] w1] eqn:Hfin.
    + destruct (finishStage_returns _ _ _ _ _ Hfin) as [-> Hflag]. simpl.
      intros [= -> <-].
      pose proof (λ X (F : world → X) HF Hb,
                    keeps_finishStage F HF cb u Hb w) as Hkeep.
      rewrite Hfin in Hkeep. simpl in Hkeep.
      repeat split; [by apply Hkeep..|done].
    + destruct ti; simpl; [done|].
      unfold thenablify, tryCatch, bind.
      destruct (catchStage cb e w1) as [[r|e'] w2] eqn:Hcatch; [|done].
      by rewrite (catchStage_returns _ _ _ _ _ Hcatch).
  - rewrite rejected_chain_routed. destruct ti; [done|].
    unfold thenablify, tryCatch, bind.
    destruct (catchStage cb e w) as [[r|e'] w2] eqn:Hcatch; [|done].
    by rewrite (catchStage_returns _ _ _ _ _ Hcatch).
Qed.

Lemma keeps_hydratePrelude {X} (F : world → X) :
  (∀ e w, flagWrite e = None → F (set_log (log w ++ [e]) w) = F w) →
  (∀ b w, F (set_hasHydrated b (set_log (log w ++ [HasHydratedSet b]) w))
          = F w) →
  keeps F (hydratePrelude getState).
Proof.
  intros HF Hb. unfold hydratePrelude, announceHydration.
  apply keeps_bind.
  { intros w. apply Hb. }
  intros _.
  apply keeps_bind; [apply keeps_gets|]. intros s.
  apply keeps_bind; [apply keeps_gets|]. intros ls.
  apply keeps_bind; [by apply keeps_emit|]. intros _.
  apply keeps_bind; [apply keeps_gets|]. intros o.
  destruct (onRehydrateStorage o) as [f|]; [|apply keeps_ret].
  apply keeps_bind; [apply keeps_gets|]. intros s'.
  apply keeps_bind; [by apply keeps_trace|]. intros _.
  apply keeps_call.
Qed.

Lemma hydrateChain_after_read initialState cb w :
  hydrateChain setState getState initialState cb w
  = match (t0 <- thenablify persistentStorageGetItem false tt ;;
           t1 <- then_ t0 deserializeStage ;;
           then_ t1 versionStage) w with
    | (Ret t2, w2) =>
        (t3 <- then_ t2 (mergeStage setState getState initialState) ;;
         t4 <- then_ t3 (finishStage cb) ;;
         catch_ t4 (catchStage cb)) w2
    | (Throw e, w2) => (Throw e, w2)
    end.
Proof.
  unfold hydrateChain, bind.
  destruct (thenablify persistentStorageGetItem false tt w) as [[t0|e] w0];
    [|done].
  destruct (then_ t0 deserializeStage w0) as [[t1|e] w1]; [|done].
  by destruct (then_ t1 versionStage w1) as [[t2|e] w2].
Qed.

(** X10.  Whenever [rehydrate()] returns a fulfilled thenable in
    throw-immediately mode, the hydration went through: the flag is true,
    the state is the merged state, and the storage was given the
    serialization, at the current version, of the selected part of exactly
    that state. *)
Theorem completed_hydration_in_step (initialState : EState) (w w' : world)
    (Hcompleted : rehydrate initialState w = (Ret (Fulfilled tt true), w')) :
  ∃ merged,
    state w' = Some merged
    ∧ initialStateFromPersistentStorage w' = Some merged
    ∧ writtenAs w merged (medium w')
    ∧ config w' = config w
    ∧ hasHydrated w' = true.
Proof.
  unfold rehydrate, hydrate in Hcompleted.
  pose proof (λ X (F : world → X) HF Hb, keeps_hydratePrelude F HF Hb w)
    as Hpre.
  unfold bind at 1 in Hcompleted.
  destruct (hydratePrelude getState w) as [[cb|e] w0]; [|done].
  simpl in Hpre.
  assert (Hc0 : config w0 = config w) by by apply Hpre.
  assert (Hm0 : medium w0 = medium w) by by apply Hpre.
  clear Hpre.
  rewrite hydrateChain_after_read in Hcompleted.
  destruct (readStages_run w0) as (t2 & w2 & Hread & Hmode & l & Hw2).
  rewrite Hread in Hcompleted.
  assert (Hc2 : config w2 = config w) by by subst w2.
  assert (Hm2 : medium w2 = medium w) by by subst w2.
  clear Hread Hw2 Hc0 Hm0 w0 l.
  unfold bind at 1 in Hcompleted.
  destruct (then_ t2 (mergeStage setState getState initialState) w2)
    as [[t3|e] w3] eqn:Hmerge; [|done].
  apply (mergeStage_inv _ _ _ _ _ Hmode) in Hmerge.
  apply completion_inv in Hcompleted.
  destruct t3 as [u [|]|e [|]|p|s]; try done.
  destruct Hmerge as (ms & merged & -> & Hmerged & Hwritten & Hw3).
  destruct Hcompleted as (Hs & Hm & Hi & Hc & Hflag).
  exists merged.
  assert (Hc3 : config w3 = config w2) by by rewrite Hw3.
  rewrite Hs, Hi, Hm, Hc, Hc3, Hc2.
  split; [by rewrite Hw3|]. split; [by rewrite Hw3|].
  split; [|done].
  destruct Hwritten as (st & selected & text & Hst & Hsel & Hser & Hset).
  injection Hc2 as Ho Hp. rewrite Ho, Hp, Hm2 in *.
  by exists st, selected, text.
Qed.

Lemma completed_hydration_in_step_witness :
  let w := counterWorld counterHost (Some memoryStorage) ∅ in
  let w' := (rehydrate (counter 0) w).2 in
  ∃ merged,
    state w' = Some merged
    ∧ initialStateFromPersistentStorage w' = Some merged
    ∧ writtenAs w merged (medium w')
    ∧ config w' = config w
    ∧ hasHydrated w' = true.
Proof.
  intros w w'.
  apply (completed_hydration_in_step (counter 0) w w').
  vm_compute. reflexivity.
Defined.

Lemma callPostRehydration_returns cb s e w :
  callbackReturns cb s e →
  callPostRehydration cb s e w
  = (Ret tt, set_log (log w ++ callbackCall cb s e) w).
Proof.
  destruct cb as [f|]; simpl.
  - intros Hf. unfold bind, trace, modify, call. by rewrite Hf.
  - intros _. unfold ret. f_equal. destruct w; simpl. by rewrite app_nil_r.
Qed.

(** The stage after the merge up to the finish-hydration listeners. *)
Lemma finishStage_emit cb u w :
  let s := initialStateFromPersistentStorage w in
  callbackReturns cb s None →
  finishStage cb u w
  = (_ <- emit (finishHydrationListeners w) s ;; ret (Plain tt))
      (set_log (log w ++ callbackCall cb s None ++ [HasHydratedSet true])
         (set_hasHydrated true w)).
Proof.
  intros s Hcb. unfold finishStage.
  rewrite (bind_Ret (gets initialStateFromPersistentStorage) _ w _ w eq_refl).
  fold s. rewrite (bind_Ret _ _ _ _ _ (callPostRehydration_returns _ _ _ w Hcb)).
  set (w1 := set_log _ w).
  unfold setHasHydrated, trace.
  set (w2 := set_hasHydrated true (set_log (log w1 ++ [HasHydratedSet true]) w1)).
  assert (H2 : (modify (λ w, set_log (log w ++ [HasHydratedSet true]) w) ;;
                modify (set_hasHydrated true)) w1 = (Ret tt, w2)) by done.
  rewrite (bind_Ret _ _ _ _ _ H2).
  rewrite (bind_Ret (gets finishHydrationListeners) _ w2 _ w2 eq_refl).
  change (finishHydrationListeners w2) with (finishHydrationListeners w).
  f_equal. unfold w2, w1. destruct w; simpl. unfold set_log; simpl.
  by rewrite <- app_assoc.
Qed.

Lemma finishStage_run cb u w :
  let s := initialStateFromPersistentStorage w in
  callbackReturns cb s None →
  Forall (returnsAt s) (finishHydrationListeners w) →
  finishStage cb u w
  = (Ret (Plain tt),
     set_log (log w ++ callbackCall cb s None ++ [HasHydratedSet true]
              ++ callsOf (finishHydrationListeners w) s)
       (set_hasHydrated true w)).
Proof.
  intros s Hcb Hls. rewrite (finishStage_emit cb u w Hcb). fold s.
  erewrite bind_Ret; [|by apply emit_all_return].
  unfold ret. f_equal. destruct w; simpl. unfold set_log; simpl.
  by rewrite <- !app_assoc.
Qed.

(** X11.  The stage after the merge calls the post-rehydration callback, then
    sets the flag, then calls the finish-hydration listeners in order.  When
    the callback throws the flag is not set and no listener is called; when
    a listener throws the flag is set already. *)
Theorem finishStage_order (cb : option PostRehydrationCallback) (u : unit)
    (w : world) (before after : list Listener)
    (Hls : finishHydrationListeners w = before ++ after)
    (Hbefore : Forall (returnsAt (initialStateFromPersistentStorage w)) before) :
  let s := initialStateFromPersistentStorage w in
  (∀ f e, cb = Some f → f s None = Throw e →
     finishStage cb u w
     = (Throw e, set_log (log w ++ [PostRehydrationCalled s None]) w))
  ∧ (callbackReturns cb s None →
     match after with
     | [] =>
         finishStage cb u w
         = (Ret (Plain tt),
            set_log (log w ++ callbackCall cb s None ++ [HasHydratedSet true]
                     ++ callsOf before s)
              (set_hasHydrated true w))
     | f :: _ =>
         ∀ e, lcall f s = Throw e →
           finishStage cb u w
           = (Throw e,
              set_log (log w ++ callbackCall cb s None
                       ++ [HasHydratedSet true] ++ callsOf (before ++ [f]) s)
                (set_hasHydrated true w))
     end).
Proof.
  intros s. split.
  - intros f e -> He. unfold finishStage, callPostRehydration, bind, gets,
      trace, modify, call. simpl. fold s. by rewrite He.
  - intros Hcb. destruct after as [|f after].
    + rewrite app_nil_r in Hls. rewrite <- Hls.
      apply finishStage_run; [done|by rewrite Hls].
    + intros e He. rewrite (finishStage_emit cb u w Hcb). fold s. rewrite Hls.
      erewrite bind_Throw; [|by apply emit_first_throw].
      f_equal. destruct w; simpl. unfold set_log; simpl.
      by rewrite <- !app_assoc.
Qed.

Lemma finishStage_order_witness :
  let w := set_finishHydrationListeners [throwingListener]
             (set_initialStateFromPersistentStorage (Some (counter 0))
                (counterWorld counterHost (Some memoryStorage) ∅)) in
  let s := initialStateFromPersistentStorage w in
  finishStage (Some quietCallback) tt w
  = (Throw "listener failed",
     set_log (log w ++ callbackCall (Some quietCallback) s None
              ++ [HasHydratedSet true] ++ callsOf ([] ++ [throwingListener]) s)
       (set_hasHydrated true w)).
Proof.
  intros w s.
  apply (proj2 (finishStage_order (Some quietCallback) tt w []
                  [throwingListener] eq_refl (List.Forall_nil _)) eq_refl
           "listener failed" eq_refl).
Defined.

(** The merge stage when the merge and the write go through. *)
Lemma mergeStage_writes initialState migratedState w merged data :
  merge (options w) migratedState initialState = Ret merged →
  writtenAs w merged data →
  then_ (Fulfilled migratedState false)
    (mergeStage setState getState initialState) w
  = (Ret (Fulfilled tt true),
     set_medium data
       (set_state (Some merged)
          (set_initialStateFromPersistentStorage (Some merged) w))).
Proof.
  intros Hmerge (st & selected & text & Hst & Hsel & Hser & Hset).
  unfold then_, mergeStage, updatePersistentStorage, bind, setState,
    getState, modify, gets, call, thenablify, tryCatch; simpl.
  unfold bind. rewrite Hmerge. unfold nextState. simpl.
  rewrite spread_empty_l, Hsel.
  unfold bind, call. rewrite Hser. simpl.
  unfold thenablify, tryCatch, persistentStorageSetItem, storageMethod,
    bind, gets, ret; simpl.
  rewrite Hst.
  change (medium (set_state (Some merged)
            (set_initialStateFromPersistentStorage (Some merged) w)))
    with (medium w).
  by rewrite Hset.
Qed.

(** The chain from the merge stage on, when nothing fails. *)
Lemma fromMergeStage_run (initialState : EState)
    (cb : option PostRehydrationCallback) (migratedState : Persisted)
    (w : world) (merged : EState) (data : gmap string Serialized)
    (Hmerge : merge (options w) migratedState initialState = Ret merged)
    (Hwrite : writtenAs w merged data)
    (Hcb : callbackReturns cb (Some merged) None)
    (Hls : Forall (returnsAt (Some merged)) (finishHydrationListeners w)) :
  fromMergeStage initialState cb migratedState w
  = (Ret (Fulfilled tt true),
     set_log (log w ++ callbackCall cb (Some merged) None
              ++ [HasHydratedSet true]
              ++ callsOf (finishHydrationListeners w) (Some merged))
       (set_hasHydrated true
          (set_medium data
             (set_state (Some merged)
                (set_initialStateFromPersistentStorage (Some merged) w))))).
Proof.
  unfold fromMergeStage.
  rewrite (bind_Ret _ _ _ _ _
             (mergeStage_writes initialState migratedState w merged data
                Hmerge Hwrite)).
  set (w1 := set_medium _ _).
  assert (H4 : then_ (Fulfilled tt true) (finishStage cb) w1
               = (Ret (Fulfilled tt true),
                  set_log (log w1 ++ callbackCall cb (Some merged) None
                           ++ [HasHydratedSet true]
                           ++ callsOf (finishHydrationListeners w1)
                                (Some merged))
                    (set_hasHydrated true w1))).
  { unfold then_, thenablify, tryCatch, bind.
    by rewrite (finishStage_run cb tt w1 Hcb Hls). }
  by rewrite (bind_Ret _ _ _ _ _ H4).
Qed.

(** ** A hydration that goes through, and construction *)

(** [persistImpl] with storage: the fresh variables, then [hydrate()], then
    [initialStateFromPersistentStorage || initialState]. *)
Lemma persistImpl_run (h : Host) (storeInitializer : StoreInitializer)
    (_options : EPersistOptions) (parentSet : Setter)
    (parentGet : Js (option EState)) (parentStore : StoreHandle)
    (w : world) (g : Provider) (st : EPersistentStorage)
    (initialState : EState) (w1 : world) :
  let o := spreadDefaults (defaultOptions h) _options in
  let w0 := set_persistentStorage (Some st)
              (set_providerCalls (S (providerCalls w)) (set_options o w)) in
  let store := update parentStore "setState" (persistedReplacer parentGet) in
  getStorage o = Some g →
  g (providerCalls w) = Ret (Some st) →
  storeInitializer (persistedSet parentSet parentGet) parentGet store w0
  = (Ret initialState, w1) →
  persistImpl h storeInitializer _options parentSet parentGet parentStore w
  = (_ <- hydrate parentSet parentGet initialState ;;
     fromStorage <- gets initialStateFromPersistentStorage ;;
     ret (default initialState fromStorage, store,
          Some (persistNamespace parentSet parentGet initialState)))
      (set_finishHydrationListeners []
         (set_hydrationListeners []
            (set_hasHydrated false
               (set_initialStateFromPersistentStorage None w1)))).
Proof.
  intros o w0 store Hg Hst Hinit. unfold persistImpl.
  assert (H0 : modify (set_options o) w = (Ret tt, set_options o w)) by done.
  rewrite (bind_Ret _ _ _ _ _ H0).
  rewrite (bind_Ret (gets options) _ _ _ _ eq_refl).
  change (options (set_options o w)) with o. rewrite Hg.
  assert (H1 : tryElse (callProvider g) (λ _, ret None) (set_options o w)
               = (Ret (Some st),
                  set_providerCalls (S (providerCalls w)) (set_options o w))).
  { unfold tryElse, tryCatch, callProvider, bind, gets, modify, call. simpl.
    by rewrite Hst. }
  rewrite (bind_Ret _ _ _ _ _ H1).
  assert (H2 : modify (set_persistentStorage (Some st))
                 (set_providerCalls (S (providerCalls w)) (set_options o w))
               = (Ret tt, w0)) by done.
  rewrite (bind_Ret _ _ _ _ _ H2).
  fold store. rewrite (bind_Ret _ _ _ _ _ Hinit).
  done.
Qed.

(** The version stage on an envelope whose version is absent or current:
    its state, wrapped when it has no [then] member and as it is when it has
    one. *)
Lemma versionStage_current sv w :
  env_version sv = None ∨ env_version sv = Some (version (options w)) →
  then_ (Fulfilled (Some sv) false) versionStage w
  = (Ret (match env_state sv !! "then" with
          | None => Fulfilled (PState (env_state sv)) false
          | Some _ => RecordWithThen (env_state sv)
          end), w).
Proof.
  unfold then_, thenablify, tryCatch, versionStage, bind, gets, call,
    returnedState, thenMember.
  intros [->| ->]; simpl; [|rewrite bool_decide_eq_true_2 by done];
    by destruct (env_state sv !! "then").
Qed.

Lemma versionStage_unmigrated sv v w :
  env_version sv = Some v → v ≠ version (options w) →
  migrate (options w) = None →
  then_ (Fulfilled (Some sv) false) versionStage w
  = (Ret (Fulfilled PUndefined false),
     set_log (log w ++ [ConsoleError messages.couldNotMigrate]) w).
Proof.
  intros Hv Hne Hm.
  unfold then_, thenablify, tryCatch, versionStage, bind, gets, call.
  rewrite Hv. simpl. rewrite bool_decide_eq_false_2 by done. by rewrite Hm.
Qed.

Lemma hydratePrelude_quiet w :
  hydrationListeners w = [] → onRehydrateStorage (options w) = None →
  hydratePrelude getState w
  = (Ret None,
     set_log (log w ++ [HasHydratedSet false]) (set_hasHydrated false w)).
Proof.
  intros Hls Ho.
  unfold hydratePrelude, setHasHydrated, trace.
  set (w0 := set_hasHydrated false
               (set_log (log w ++ [HasHydratedSet false]) w)).
  assert (H0 : (modify (λ w, set_log (log w ++ [HasHydratedSet false]) w) ;;
                modify (set_hasHydrated false)) w = (Ret tt, w0)) by done.
  rewrite (bind_Ret _ _ _ _ _ H0).
  unfold announceHydration.
  rewrite (bind_Ret getState _ w0 _ w0 eq_refl).
  rewrite (bind_Ret (gets hydrationListeners) _ w0 _ w0 eq_refl).
  change (hydrationListeners w0) with (hydrationListeners w). rewrite Hls.
  rewrite (bind_Ret (emit [] _) _ w0 _ w0 eq_refl).
  rewrite (bind_Ret (gets options) _ w0 _ w0 eq_refl).
  change (options w0) with (options w). rewrite Ho.
  done.
Qed.

(** X12.  A stored entry whose version is absent or current, and whose
    state has no member named [then], is merged as it is: when merge and
    write go through and callback and listeners return, [hydrate] returns
    fulfilled with the merged state in place, the storage rewritten and the
    flag set. *)
Theorem hydration_completes (initialState : EState)
    (cb : option PostRehydrationCallback) (w : world)
    (st : EPersistentStorage) (text : string) (sv : EPersistentStorageValue)
    (merged : EState) (data : gmap string Serialized)
    (Hst : persistentStorage w = Some st)
    (Hget : getItem st (name (options w)) (medium w) = Ret (Now (Some text)))
    (Hde : deserialize (options w) text = Ret (Now sv))
    (Hver : env_version sv = None
            ∨ env_version sv = Some (version (options w)))
    (Hplain : env_state sv !! "then" = None)
    (Hmerge : merge (options w) (PState (env_state sv)) initialState
              = Ret merged)
    (Hwrite : writtenAs w merged data)
    (Hcb : callbackReturns cb (Some merged) None)
    (Hls : Forall (returnsAt (Some merged)) (finishHydrationListeners w)) :
  hydrateChain setState getState initialState cb w
  = (Ret (Fulfilled tt true),
     set_log (log w ++ callbackCall cb (Some merged) None
              ++ [HasHydratedSet true]
              ++ callsOf (finishHydrationListeners w) (Some merged))
       (set_hasHydrated true
          (set_medium data
             (set_state (Some merged)
                (set_initialStateFromPersistentStorage (Some merged) w))))).
Proof.
  rewrite (hydrateChain_read initialState cb w st text sv Hst Hget Hde).
  rewrite (bind_Ret _ _ _ _ _ (versionStage_current sv w Hver)), Hplain.
  by apply fromMergeStage_run.
Qed.

Lemma hydration_completes_witness :
  let w := counterWorld counterHost (Some memoryStorage)
             {[ "app" := "05" ]} in
  let merged := spread (counter 0) (counter 5) in
  let data : gmap string Serialized := <[ "app" := "05" ]> (medium w) in
  hydrateChain setState getState (counter 0) None w
  = (Ret (Fulfilled tt true),
     set_log (log w ++ callbackCall None (Some merged) None
              ++ [HasHydratedSet true]
              ++ callsOf (finishHydrationListeners w) (Some merged))
       (set_hasHydrated true
          (set_medium data
             (set_state (Some merged)
                (set_initialStateFromPersistentStorage (Some merged) w))))).
Proof.
  intros w merged data.
  apply (hydration_completes (counter 0) None w memoryStorage "05"
           {| env_state := counter 5; env_version := Some 0%Z |}
           merged data).
  - reflexivity.
  - reflexivity.
  - reflexivity.
  - right. reflexivity.
  - reflexivity.
  - reflexivity.
  - exists memoryStorage, merged, "05".
    split; [reflexivity|]. split; [reflexivity|].
    split; [vm_compute|]; reflexivity.
  - exact I.
  - constructor.
Defined.

(** A store made with the default options over [memoryStorage]: the world in
    which [hydrate()] is called. *)
Lemma createStore_run (h : Host) (key : string) (s0 : EState)
    (data : gmap string string) (st : EPersistentStorage) :
  localStorage h 0 = Ret (Some st) →
  let o := spreadDefaults (defaultOptions h)
             {| e_name := key; e_members := noMembers |} in
  let w0 :=
    {| state := None; medium := data; providerCalls := 1; log := [];
       options := o; persistentStorage := Some st; hasHydrated := false;
       initialStateFromPersistentStorage := None;
       hydrationListeners := []; finishHydrationListeners := [] |} in
  (createStore
     (persistImpl h (λ _ _ _, ret s0)
        {| e_name := key; e_members := noMembers |})
     (emptyWorld h data)).2
  = match rehydrate s0 w0 with
    | (Ret _, w') =>
        set_state
          (Some (default s0 (initialStateFromPersistentStorage w'))) w'
    | (Throw _, w') => w'
    end.
Proof.
  intros Hst o w0. unfold createStore.
  pose proof (persistImpl_run h (λ _ _ _, ret s0)
                {| e_name := key; e_members := noMembers |}
                setState getState {[ "setState" := setState ]}
                (emptyWorld h data) (localStorage h) st s0 _
                eq_refl Hst eq_refl) as Hp.
  unfold bind at 1. rewrite Hp. clear Hp.
  unfold bind at 1. change (hydrate setState getState s0) with (rehydrate s0).
  match goal with
  | |- context [rehydrate s0 ?w] => change w with w0
  end.
  by destruct (rehydrate s0 w0) as [[t|e] w'].
Qed.

(** X13.  A store made with the default options over a synchronous storage
    that holds an entry: when the stored version is absent or 0, and the
    stored state has no member named [then], the state after construction
    is the initial state overlaid with the stored one; when the stored
    version is another one, an error is logged and the state is the initial
    state.  In both cases the entry is rewritten from that state and the
    flag is true. *)
Theorem construction_restores_state (h : Host) (key : string)
    (s0 : EState) (sv : EPersistentStorageValue) (text text' : string)
    (data : gmap string string)
    (Hstorage : localStorage h 0 = Ret (Some memoryStorage))
    (Hentry : data !! key = Some text)
    (Hparse : JSON_parse h text = Ret sv)
    (Hplain : currentVersion (env_version sv) = true →
              env_state sv !! "then" = None)
    (Hstringify :
       JSON_stringify h
         {| env_state := restored s0 sv; env_version := Some 0%Z |}
       = Ret text') :
  let w1 :=
    (createStore
       (persistImpl h (λ _ _ _, ret s0)
          {| e_name := key; e_members := noMembers |})
       (emptyWorld h data)).2 in
  state w1 = Some (restored s0 sv)
  ∧ medium w1 = <[key := text']> data
  ∧ hasHydrated w1 = true
  ∧ log w1
    = HasHydratedSet false
      :: (if currentVersion (env_version sv) then []
          else [ConsoleError messages.couldNotMigrate])
      ++ [HasHydratedSet true].
Proof.
  intros w1. unfold w1. rewrite (createStore_run h key s0 data _ Hstorage).
  set (o := spreadDefaults _ _).
  set (w0 := {| state := None |}).
  set (w0' := set_log (log w0 ++ [HasHydratedSet false])
                (set_hasHydrated false w0)).
  assert (Hwrite : ∀ w, options w = o → medium w = data →
                        persistentStorage w = Some memoryStorage →
                        writtenAs w (restored s0 sv) (<[key := text']> data)).
  { intros w Ho Hm Hp. exists memoryStorage, (restored s0 sv), text'.
    rewrite Ho, Hm. split; [done|]. split; [done|]. split; [|done].
    simpl. unfold liftNow. by rewrite Hstringify. }
  assert (Hde : deserialize o text = Ret (Now sv)).
  { simpl. unfold liftNow. by rewrite Hparse. }
  assert (Hr : ∃ w', rehydrate s0 w0 = (Ret (Fulfilled tt true), w')
                     ∧ state w' = Some (restored s0 sv)
                     ∧ initialStateFromPersistentStorage w'
                       = Some (restored s0 sv)
                     ∧ medium w' = <[key := text']> data
                     ∧ hasHydrated w' = true
                     ∧ log w'
                       = HasHydratedSet false
                         :: (if currentVersion (env_version sv) then []
                             else [ConsoleError messages.couldNotMigrate])
                         ++ [HasHydratedSet true]).
  { unfold rehydrate, hydrate.
    rewrite (bind_Ret _ _ _ _ _ (hydratePrelude_quiet w0 eq_refl eq_refl)).
    fold w0'.
    rewrite (hydrateChain_read s0 None w0' memoryStorage text sv eq_refl
               (f_equal (λ x, Ret (Now x)) Hentry) Hde).
    unfold restored in *.
    destruct (currentVersion (env_version sv)) eqn:Hcur.
    - assert (Hver : env_version sv = None
                     ∨ env_version sv = Some (version (options w0'))).
      { unfold currentVersion in Hcur.
        destruct (env_version sv) as [v|]; [|by left].
        right. f_equal. by apply bool_decide_eq_true_1 in Hcur. }
      rewrite (bind_Ret _ _ _ _ _ (versionStage_current sv w0' Hver)).
      rewrite (Hplain eq_refl).
      eexists. split.
      { apply (fromMergeStage_run s0 None (PState (env_state sv)) w0'
                 (spread s0 (env_state sv)) (<[key := text']> data));
          [done|by apply Hwrite|done|by constructor]. }
      done.
    - assert (Hver : ∃ v, env_version sv = Some v
                          ∧ v ≠ version (options w0')).
      { unfold currentVersion in Hcur.
        destruct (env_version sv) as [v|]; [|done].
        exists v. split; [done|]. by apply bool_decide_eq_false_1 in Hcur. }
      destruct Hver as (v & Hv & Hne).
      rewrite (bind_Ret _ _ _ _ _
                 (versionStage_unmigrated sv v w0' Hv Hne eq_refl)).
      eexists. split.
      { apply (fromMergeStage_run s0 None PUndefined _ s0
                 (<[key := text']> data));
          [by simpl; rewrite spread_undefined|by apply Hwrite|done
          |by constructor]. }
      done. }
  destruct Hr as (w' & -> & Hs & Hi & Hm & Hf & Hl).
  rewrite Hi. simpl. done.
Qed.

Lemma construction_restores_state_witness :
  let sv := {| env_state := counter 5; env_version := Some 0%Z |} in
  let w1 :=
    (createStore
       (persistImpl counterHost (λ _ _ _, ret (counter 0))
          {| e_name := "app"; e_members := noMembers |})
       (emptyWorld counterHost {[ "app" := "05" ]})).2 in
  state w1 = Some (restored (counter 0) sv)
  ∧ medium w1 = <[ "app" := "05" ]> {[ "app" := "05" ]}
  ∧ hasHydrated w1 = true
  ∧ log w1
    = HasHydratedSet false
      :: (if currentVersion (env_version sv) then []
          else [ConsoleError messages.couldNotMigrate])
      ++ [HasHydratedSet true].
Proof.
  intros sv.
  apply (construction_restores_state counterHost "app" (counter 0) sv
           "05" "05" {[ "app" := "05" ]}).
  - reflexivity.
  - reflexivity.
  - reflexivity.
  - intros _. reflexivity.
  - vm_compute. reflexivity.
Defined.

(** The construction throws what its [hydrate()] call throws. *)
Lemma createStore_throws (h : Host) (key : string) (s0 : EState)
    (data : gmap string string) (st : EPersistentStorage) e w' :
  localStorage h 0 = Ret (Some st) →
  rehydrate s0
    {| state := None; medium := data; providerCalls := 1; log := [];
       options := spreadDefaults (defaultOptions h)
                    {| e_name := key; e_members := noMembers |};
       persistentStorage := Some st; hasHydrated := false;
       initialStateFromPersistentStorage := None;
       hydrationListeners := []; finishHydrationListeners := [] |}
  = (Throw e, w') →
  createStore
    (persistImpl h (λ _ _ _, ret s0)
       {| e_name := key; e_members := noMembers |})
    (emptyWorld h data)
  = (Throw e, w').
Proof.
  intros Hst Hr. unfold createStore.
  pose proof (persistImpl_run h (λ _ _ _, ret s0)
                {| e_name := key; e_members := noMembers |}
                setState getState {[ "setState" := setState ]}
                (emptyWorld h data) (localStorage h) st s0 _
                eq_refl Hst eq_refl) as Hp.
  unfold bind at 1. rewrite Hp. clear Hp.
  unfold bind at 1. change (hydrate setState getState s0) with (rehydrate s0).
  match goal with
  | |- context [rehydrate s0 ?w] =>
      match type of Hr with rehydrate s0 ?w0 = _ => change w with w0 end
  end.
  by rewrite Hr.
Qed.

(** X19.  A store made with the default options over a synchronous storage
    whose entry, with no version or version 0, holds a state that has a
    member named [then]: the version stage returns that record, [hasThen]
    takes it for a thenable, and the [then] call that would attach the
    merge stage throws.  The construction throws a [TypeError]; nothing is
    restored or written, and the flag is false. *)
Theorem construction_over_then_state (h : Host) (key : string)
    (s0 : EState) (sv : EPersistentStorageValue) (text : string)
    (data : gmap string string)
    (Hstorage : localStorage h 0 = Ret (Some memoryStorage))
    (Hentry : data !! key = Some text)
    (Hparse : JSON_parse h text = Ret sv)
    (Hcur : currentVersion (env_version sv) = true)
    (Hthen : is_Some (env_state sv !! "then")) :
  let r :=
    createStore
      (persistImpl h (λ _ _ _, ret s0)
         {| e_name := key; e_members := noMembers |})
      (emptyWorld h data) in
  r.1 = Throw typeError
  ∧ state r.2 = None
  ∧ initialStateFromPersistentStorage r.2 = None
  ∧ medium r.2 = data
  ∧ hasHydrated r.2 = false
  ∧ log r.2 = [HasHydratedSet false].
Proof.
  intros r.
  set (o := spreadDefaults (defaultOptions h)
              {| e_name := key; e_members := noMembers |}).
  set (w0 := {| state := None; medium := data; providerCalls := 1; log := [];
                options := o; persistentStorage := Some memoryStorage;
                hasHydrated := false;
                initialStateFromPersistentStorage := None;
                hydrationListeners := []; finishHydrationListeners := [] |}).
  set (w0' := set_log (log w0 ++ [HasHydratedSet false])
                (set_hasHydrated false w0)).
  assert (Hr : rehydrate s0 w0 = (Throw typeError, w0')).
  { unfold rehydrate, hydrate.
    rewrite (bind_Ret _ _ _ _ _ (hydratePrelude_quiet w0 eq_refl eq_refl)).
    fold w0'.
    assert (Hde : deserialize o text = Ret (Now sv)).
    { simpl. unfold liftNow. by rewrite Hparse. }
    rewrite (hydrateChain_read s0 None w0' memoryStorage text sv eq_refl
               (f_equal (λ x, Ret (Now x)) Hentry) Hde).
    assert (Hver : env_version sv = None
                   ∨ env_version sv = Some (version (options w0'))).
    { unfold currentVersion in Hcur.
      destruct (env_version sv) as [v|]; [|by left].
      right. f_equal. by apply bool_decide_eq_true_1 in Hcur. }
    rewrite (bind_Ret _ _ _ _ _ (versionStage_current sv w0' Hver)).
    by destruct Hthen as [x ->]. }
  unfold r. by rewrite (createStore_throws h key s0 data _ _ _ Hstorage Hr).
Qed.

Lemma construction_over_then_state_witness :
  let r :=
    createStore
      (persistImpl thenHost (λ _ _ _, ret (counter 0))
         {| e_name := "app"; e_members := noMembers |})
      (emptyWorld thenHost {[ "app" := "then:1" ]}) in
  r.1 = Throw typeError
  ∧ state r.2 = None
  ∧ initialStateFromPersistentStorage r.2 = None
  ∧ medium r.2 = {[ "app" := "then:1" ]}
  ∧ hasHydrated r.2 = false
  ∧ log r.2 = [HasHydratedSet false].
Proof.
  apply (construction_over_then_state thenHost "app" (counter 0)
           {| env_state := thenState; env_version := Some 0%Z |}
           "then:1" {[ "app" := "then:1" ]}).
  - reflexivity.
  - reflexivity.
  - reflexivity.
  - reflexivity.
  - by exists (VNum 1).
Defined.

(** X14.  A store made over a storage whose [getItem] answers with a promise
    is returned before anything is restored: the state is the initial
    state, the flag is false and the storage is untouched. *)
Theorem construction_over_async_storage (h : Host) (key : string)
    (s0 : EState) (data : gmap string string) (st : EPersistentStorage)
    (p : promise)
    (Hstorage : localStorage h 0 = Ret (Some st))
    (Hget : getItem st key data = Ret (Later p)) :
  let w1 :=
    (createStore
       (persistImpl h (λ _ _ _, ret s0)
          {| e_name := key; e_members := noMembers |})
       (emptyWorld h data)).2 in
  state w1 = Some s0
  ∧ initialStateFromPersistentStorage w1 = None
  ∧ medium w1 = data
  ∧ hasHydrated w1 = false
  ∧ log w1 = [HasHydratedSet false].
Proof.
  intros w1. unfold w1. rewrite (createStore_run h key s0 data _ Hstorage).
  set (w0 := {| state := None |}).
  assert (Hr : rehydrate s0 w0
               = (Ret (PromiseLike (Nat.iter 5 Chained p)),
                  set_log (log w0 ++ [HasHydratedSet false])
                    (set_hasHydrated false w0))).
  { unfold rehydrate, hydrate.
    rewrite (bind_Ret _ _ _ _ _ (hydratePrelude_quiet w0 eq_refl eq_refl)).
    set (w0' := set_log _ _).
    unfold hydrateChain. unfold bind at 1.
    rewrite (getItem_run st w0' eq_refl).
    change (getItem st (name (options w0')) (medium w0'))
      with (getItem st key data).
    by rewrite Hget. }
  by rewrite Hr.
Qed.

Lemma construction_over_async_storage_witness :
  let w1 :=
    (createStore
       (persistImpl asyncHost (λ _ _ _, ret (counter 0))
          {| e_name := "app"; e_members := noMembers |})
       (emptyWorld asyncHost ∅)).2 in
  state w1 = Some (counter 0)
  ∧ initialStateFromPersistentStorage w1 = None
  ∧ medium w1 = ∅
  ∧ hasHydrated w1 = false
  ∧ log w1 = [HasHydratedSet false].
Proof.
  intros w1.
  apply (construction_over_async_storage asyncHost "app" (counter 0) ∅
           asyncStorage (HostPromise 0)); reflexivity.
Defined.

(** [updatePersistentStorage] when the serializer returns a text: the state
    is selected, serialized with the current version and handed to the
    storage. *)
Lemma updatePersistentStorage_run w s selected text :
  state w = Some s →
  partialize (options w) s = Ret selected →
  serialize (options w)
    {| env_state := selected; env_version := Some (version (options w)) |}
  = Ret (Now text) →
  updatePersistentStorage getState w
  = thenablify persistentStorageSetItem true text w.
Proof.
  intros Hs Hsel Hser.
  unfold updatePersistentStorage.
  rewrite (bind_Ret (gets options) _ w _ w eq_refl).
  rewrite (bind_Ret getState _ w _ w eq_refl).
  change (getState w).1 with (Ret (state w)). 
  unfold bind at 1, call at 1. unfold getState, gets. simpl.
  rewrite Hs. simpl. rewrite spread_empty_l, Hsel.
  unfold bind at 1, thenablify at 1, tryCatch, bind at 1, call at 1.
  by rewrite Hser.
Qed.




(** ** Writes after [setOptions] and without a handle *)

(** X16.  Once the handle is lost ([setOptions] can leave it undefined), a
    state write still replaces the state and then throws a [TypeError] at
    its caller, [clearStorage()] throws it too, and [hydrate] routes it to
    the final [catch]. *)
Theorem lost_handle (a : SetArgs) (w : world) (selected : EState)
    (text : string)
    (Hlost : persistentStorage w = None)
    (Hsel : partialize (options w) (nextState a (state w)) = Ret selected)
    (Hser : serialize (options w)
              {| env_state := selected;
                 env_version := Some (version (options w)) |}
            = Ret (Now text)) :
  persistedSet setState getState a w
  = (Throw typeError, set_state (Some (nextState a (state w))) w)
  ∧ persistentStorageRemoveItem w = (Throw typeError, w)
  ∧ ∀ initialState cb,
      hydrateChain setState getState initialState cb w
      = thenablify (catchStage cb) false typeError w.
Proof.
  split; [|split].
  - unfold persistedSet.
    set (w1 := set_state (Some (nextState a (state w))) w).
    assert (H1 : setState a w = (Ret tt, w1)) by done.
    rewrite (bind_Ret _ _ _ _ _ H1).
    apply bind_Throw.
    rewrite (updatePersistentStorage_run w1 _ selected text eq_refl Hsel Hser).
    unfold thenablify, tryCatch, persistentStorageSetItem, storageMethod,
      bind, gets. simpl. by rewrite Hlost.
  - unfold persistentStorageRemoveItem, storageMethod, bind, gets. simpl.
    by rewrite Hlost.
  - intros initialState cb. unfold hydrateChain.
    by rewrite (bind_Ret _ _ _ _ _ (getItem_no_handle w Hlost)).
Qed.

Lemma lost_handle_witness :
  let w := counterWorld flakyHost None {[ "app" := "00" ]} in
  let a : SetArgs := (Partial (counter 1), false) in
  persistedSet setState getState a w
  = (Throw typeError, set_state (Some (nextState a (state w))) w)
  ∧ persistentStorageRemoveItem w = (Throw typeError, w)
  ∧ ∀ initialState cb,
      hydrateChain setState getState initialState cb w
      = thenablify (catchStage cb) false typeError w.
Proof.
  intros w a.
  apply (lost_handle a w (nextState a (state w)) "01").
  - reflexivity.
  - reflexivity.
  - vm_compute. reflexivity.
Defined.

Lemma setOptions_keeps {X} (F : world → X) newOptions :
  (∀ o w, F (set_options o w) = F w) →
  (∀ n w, F (set_providerCalls n w) = F w) →
  (∀ st w, F (set_persistentStorage st w) = F w) →
  keeps F (setOptions newOptions).
Proof.
  intros Ho Hn Hst w.
  unfold setOptions, callProvider, bind, modify, gets, call.
  generalize (spreadOptions (options w) newOptions). intros o. simpl.
  destruct (getStorage o) as [g|]; simpl; [|apply Ho].
  destruct (g (providerCalls w)); simpl.
  - by rewrite Hst, Hn, Ho.
  - by rewrite Hn, Ho.
Qed.

(** X17.  [setOptions] itself touches neither state nor storage; the next
    state write selects, serializes and stores with the merged options: the
    new name, version, serializer and handle. *)
Theorem setOptions_then_write (newOptions : PartialEPersistOptions)
    (a : SetArgs) (w w1 : world) (st : EPersistentStorage)
    (selected : EState) (text : string)
    (Hset : setOptions newOptions w = (Ret tt, w1))
    (Hst : persistentStorage w1 = Some st) :
  let o := spreadOptions (options w) newOptions in
  let current := nextState a (state w) in
  partialize o current = Ret selected →
  serialize o {| env_state := selected; env_version := Some (version o) |}
  = Ret (Now text) →
  state w1 = state w ∧ medium w1 = medium w
  ∧ persistedSet setState getState a w1
    = (match (setItem st (name o) text (medium w)).1 with
       | Ret _ => Ret tt
       | Throw e => Throw e
       end,
       set_medium (setItem st (name o) text (medium w)).2
         (set_state (Some current) w1)).
Proof.
  intros o current Hsel Hser.
  pose proof (setOptions_merges newOptions w) as Ho.
  pose proof (setOptions_keeps state newOptions
                (λ _ _, eq_refl) (λ _ _, eq_refl) (λ _ _, eq_refl) w) as Hs.
  pose proof (setOptions_keeps medium newOptions
                (λ _ _, eq_refl) (λ _ _, eq_refl) (λ _ _, eq_refl) w) as Hm.
  rewrite Hset in Ho, Hs, Hm. simpl in Ho, Hs, Hm. fold o in Ho.
  clearbody o.
  split; [done|]. split; [done|].
  unfold persistedSet.
  set (w2 := set_state (Some current) w1).
  assert (H1 : setState a w1 = (Ret tt, w2)).
  { unfold setState, modify, w2, current. by rewrite Hs. }
  rewrite (bind_Ret _ _ _ _ _ H1).
  assert (Ho2 : options w2 = o) by done.
  unfold bind at 1.
  rewrite (updatePersistentStorage_run w2 current selected text eq_refl);
    [|by rewrite Ho2..].
  assert (Hst2 : persistentStorage w2 = Some st) by exact Hst.
  assert (Hm2 : medium w2 = medium w) by exact Hm.
  clearbody w2.
  unfold thenablify, tryCatch, persistentStorageSetItem, storageMethod,
    bind, gets, ret; simpl.
  rewrite Hst2, Ho2, Hm2.
  by destruct (setItem st (name o) text (medium w)) as [[[[]|p]|e] data].
Qed.

Lemma setOptions_then_write_witness :
  let w := counterWorld counterHost (Some memoryStorage)
             {[ "app" := "00" ]} in
  let w1 := (setOptions renamed w).2 in
  let a : SetArgs := (Partial (counter 1), false) in
  let o := spreadOptions (options w) renamed in
  let current := nextState a (state w) in
  state w1 = state w ∧ medium w1 = medium w
  ∧ persistedSet setState getState a w1
    = (match (setItem memoryStorage (name o) "01" (medium w)).1 with
       | Ret _ => Ret tt
       | Throw e => Throw e
       end,
       set_medium (setItem memoryStorage (name o) "01" (medium w)).2
         (set_state (Some current) w1)).
Proof.
  intros w w1 a.
  apply (setOptions_then_write renamed a w w1 memoryStorage
           (nextState a (state w)) "01").
  - reflexivity.
  - reflexivity.
  - reflexivity.
  - vm_compute. reflexivity.
Defined.
